(** * ghostunnel tls.go: the reloadable server certificate and the TLS policy

    A shallow embedding of [tls.go]: the reloadable certificate
    ([buildCertificate], [getCertificate], [reload]), the trust bundle loader
    ([certBundle]) and the policy builder ([buildConfig]).

    The Go standard library and [golang.org/x/crypto/pkcs12] are not part of
    the program: their functions are the fields of the record [GoLibs], and
    every definition of the program takes such a record as a parameter.  A Go
    result [(v, err)] is the pair of [v] and an [option error], [None] being
    the nil error; a pointer that may be nil is an [option]. *)

From stdpp Require Import base option list strings gmap.
From Stdlib Require Import ZArith.
From Stdlib.Strings Require Import Byte.

Open Scope string_scope.
Open Scope list_scope.

(** []byte *)
Abbreviation bytes := (list Byte.byte).

(** A Go [error] value, identified by the text of its [Error()] method. *)
Definition error := string.

(** fmt.Errorf on a format string without verbs. *)
Definition fmt_Errorf (format : string) : error := format.

(** What a call does: it returns, or it panics (a run-time error such as an
    index out of range). *)
Inductive go (A : Type) : Type :=
  | Ret (a : A)
  | Panic.
Arguments Ret {A} a.
Arguments Panic {A}.

(** ** Library types *)

(** pem.Block *)
Record pem_Block := {
  Type_ : string;
  Headers : gmap string string;
  Bytes : bytes
}.

(** tls.ClientHelloInfo *)
Record tls_ClientHelloInfo := {
  hello_CipherSuites : list Z;
  hello_ServerName : string;
  hello_SupportedCurves : list Z;
  hello_SupportedPoints : list Z
}.

(** tls.ClientAuthType, in the order of its iota declaration. *)
Inductive tls_ClientAuthType :=
  | tls_NoClientCert
  | tls_RequestClientCert
  | tls_RequireAnyClientCert
  | tls_VerifyClientCertIfGiven
  | tls_RequireAndVerifyClientCert.

(** Protocol versions and cipher suite identifiers of crypto/tls (uint16). *)
Definition tls_VersionSSL30 : Z := 0x0300.
Definition tls_VersionTLS10 : Z := 0x0301.
Definition tls_VersionTLS11 : Z := 0x0302.
Definition tls_VersionTLS12 : Z := 0x0303.

Definition tls_TLS_ECDHE_RSA_WITH_AES_128_GCM_SHA256 : Z := 0xc02f.
Definition tls_TLS_ECDHE_ECDSA_WITH_AES_128_GCM_SHA256 : Z := 0xc02b.
Definition tls_TLS_ECDHE_RSA_WITH_AES_256_GCM_SHA384 : Z := 0xc030.
Definition tls_TLS_ECDHE_ECDSA_WITH_AES_256_GCM_SHA384 : Z := 0xc02c.

Section Types.
(** crypto.PrivateKey and x509.Certificate are opaque to the program. *)
Context {PrivateKey X509 : Type}.

(** tls.Certificate: the chain (leaf first, DER), the private key and the
    parsed leaf.  The program never touches its other fields. *)
Record tls_Certificate := {
  Certificate : list bytes;
  PrivateKey_ : option PrivateKey;
  Leaf : option X509
}.

(** x509.CertPool: the certificates of the pool. *)
Definition x509_CertPool := list X509.

(** tls.Config, the fields that [buildConfig] sets; all others keep their
    zero value. *)
Record tls_Config := {
  RootCAs : option x509_CertPool;
  ClientCAs : option x509_CertPool;
  PreferServerCipherSuites : bool;
  ClientAuth : tls_ClientAuthType;
  MinVersion : Z;
  CipherSuites : list Z
}.

(** The file system: what reading each path yields at this moment, and the
    log of the paths read so far, by the program with ioutil.ReadFile or by
    a library on its behalf. *)
Record World := {
  fs : string → bytes * option error;
  reads : list string
}.

Definition ioutil_ReadFile (filename : string) (w : World)
  : (bytes * option error) * World :=
  (fs w filename, {| fs := fs w; reads := reads w ++ [filename] |}).

(** The library functions the program calls.  x509.SystemCertPool loads the
    certificate files of the platform: it is given the world and returns
    it, with what it has read. *)
Record GoLibs := {
  pkcs12_ToPEM : bytes → string → list pem_Block * option error;
  pem_EncodeToMemory : pem_Block → bytes;
  tls_X509KeyPair : bytes → bytes → tls_Certificate * option error;
  x509_ParseCertificate : bytes → option X509 * option error;
  x509_SystemCertPool :
    World → (option x509_CertPool * option error) * World;
  x509_NewCertPool : x509_CertPool;
  (* the method mutates its receiver: the pool after the call, and ok *)
  AppendCertsFromPEM : x509_CertPool → bytes → x509_CertPool * bool
}.

(** ** The program *)

(** certificate wraps a TLS certificate in a reloadable way.  [cached] is
    nil or points to a tls.Certificate that is not written after the
    pointer is stored (see [Concurrent] below for the cells themselves). *)
Record certificate := {
  keystorePath : string;
  keystorePass : string;
  cached : option tls_Certificate
}.

Context (L : GoLibs).

(** The loop of [reload] that concatenates the encoded blocks. *)
Definition encodeBlocks (pemBlocks : list pem_Block) : bytes :=
  fold_left (λ pemBytes block, pemBytes ++ pem_EncodeToMemory L block)
            pemBlocks [].

(** [c.reload()]: the result, the store after the call and the world. *)
Definition reload (c : certificate) (w : World)
  : go (option error) * certificate * World :=
  let '((keystoreBytes, err), w) := ioutil_ReadFile (keystorePath c) w in
  match err with
  | Some e => (Ret (Some e), c, w)
  | None =>
    let '(pemBlocks, err) := pkcs12_ToPEM L keystoreBytes (keystorePass c) in
    match err with
    | Some e => (Ret (Some e), c, w)
    | None =>
      let pemBytes := encodeBlocks pemBlocks in
      let '(certAndKey, err) := tls_X509KeyPair L pemBytes pemBytes in
      match err with
      | Some e => (Ret (Some e), c, w)
      | None =>
        match Certificate certAndKey !! 0%nat with
        | None => (Panic, c, w)
        | Some der =>
          let '(leaf, err) := x509_ParseCertificate L der in
          let certAndKey :=
            {| Certificate := Certificate certAndKey;
               PrivateKey_ := PrivateKey_ certAndKey;
               Leaf := leaf |} in
          match err with
          | Some e => (Ret (Some e), c, w)
          | None =>
            (Ret None,
             {| keystorePath := keystorePath c;
                keystorePass := keystorePass c;
                cached := Some certAndKey |},
             w)
          end
        end
      end
    end
  end.

(** buildCertificate: a pointer to the new store (or nil) and the error. *)
Definition buildCertificate (keystorePath keystorePass : string) (w : World)
  : go (option certificate * option error) * World :=
  let cert := {| keystorePath := keystorePath;
                 keystorePass := keystorePass;
                 cached := None |} in
  let '(r, cert, w) := reload cert w in
  match r with
  | Panic => (Panic, w)
  | Ret (Some err) => (Ret (None, Some err), w)
  | Ret None => (Ret (Some cert, None), w)
  end.

(** getCertificate: the pointer in [cached], and always the nil error. *)
Definition getCertificate (c : certificate)
                          (clientHello : option tls_ClientHelloInfo)
  : option tls_Certificate * option error :=
  (cached c, None).

Definition certBundle (caBundlePath : string) (w : World)
  : (option x509_CertPool * option error) * World :=
  if decide (caBundlePath = "") then x509_SystemCertPool L w
  else
    let '((caBundleBytes, err), w) := ioutil_ReadFile caBundlePath w in
    match err with
    | Some e => ((None, Some e), w)
    | None =>
      let bundle := x509_NewCertPool L in
      let '(bundle, ok) := AppendCertsFromPEM L bundle caBundleBytes in
      if negb ok
      then ((None, Some (fmt_Errorf "unable to parse ca-bundle")), w)
      else ((Some bundle, None), w)
    end.

Definition buildConfig (caBundlePath : string) (w : World)
  : (option tls_Config * option error) * World :=
  let '((caBundle, err), w) := certBundle caBundlePath w in
  match err with
  | Some e => ((None, Some e), w)
  | None =>
    ((Some {| RootCAs := caBundle;
              ClientCAs := caBundle;
              PreferServerCipherSuites := true;
              ClientAuth := tls_RequireAndVerifyClientCert;
              MinVersion := tls_VersionTLS12;
              CipherSuites :=
                [ tls_TLS_ECDHE_RSA_WITH_AES_128_GCM_SHA256;
                  tls_TLS_ECDHE_ECDSA_WITH_AES_128_GCM_SHA256;
                  tls_TLS_ECDHE_RSA_WITH_AES_256_GCM_SHA384;
                  tls_TLS_ECDHE_ECDSA_WITH_AES_256_GCM_SHA384 ] |},
      None), w)
  end.

End Types.

Arguments tls_Certificate : clear implicits.
Arguments x509_CertPool : clear implicits.
Arguments tls_Config : clear implicits.
Arguments GoLibs : clear implicits.
Arguments certificate : clear implicits.

(** * The store under concurrent handshakes

    [reload] and [getCertificate] statement by statement, as threads over a
    shared memory.  sync/atomic loads and stores are sequentially consistent,
    so an execution is an interleaving of the steps below.  The local
    [certAndKey] of [reload] has its address taken (line 79), so it lives in
    the heap: [heap] holds these tls.Certificate cells, a new one at the end
    for each allocation, and [cachedp] is the pointer slot [c.cached]. *)

Section Concurrent.
Context {PrivateKey X509 : Type}.
Context (L : GoLibs PrivateKey X509).

Abbreviation cell := (tls_Certificate PrivateKey X509).

(** Where a call of [c.reload()] stands, with its live locals. *)
Inductive reloadPC :=
  | R_ReadFile                                   (* line 54 *)
  | R_ToPEM (keystoreBytes : bytes)              (* line 59 *)
  | R_Encode (pemBlocks : list pem_Block)        (* lines 64-67 *)
  | R_X509KeyPair (pemBytes : bytes)             (* line 69 *)
  | R_ParseLeaf (certAndKey : nat)               (* line 74, the call *)
  | R_SetLeaf (certAndKey : nat) (leaf : option X509) (err : option error)
                                                 (* line 74, the assignment *)
  | R_Store (certAndKey : nat)                   (* lines 79-80 *)
  | R_Returned (err : option error)
  | R_Panicked.

(** The fields of the returned tls.Certificate that a caller of
    [getCertificate] has read so far. *)
Record fieldsSeen := {
  seenCertificate : option (list bytes);
  seenPrivateKey : option (option PrivateKey);
  seenLeaf : option (option X509)
}.

Definition nothingSeen : fieldsSeen :=
  {| seenCertificate := None; seenPrivateKey := None; seenLeaf := None |}.

Inductive field := F_Certificate | F_PrivateKey | F_Leaf.

(** A handshake: it calls [getCertificate] (line 49) and then reads the
    fields of the certificate it was given, one at a time, in any order. *)
Inductive readerPC :=
  | G_Call (clientHello : option tls_ClientHelloInfo)
  | G_Got (p : option nat) (seen : fieldsSeen).

Record State := {
  c_keystorePath : string;
  c_keystorePass : string;
  cachedp : option nat;
  heap : list cell;
  world : World;
  reloaders : list reloadPC;
  readers : list readerPC;
  (* ghost: every pointer stored into [cached], the latest first *)
  published : list nat
}.

Definition set_world (w : World) (s : State) : State :=
  {| c_keystorePath := c_keystorePath s; c_keystorePass := c_keystorePass s;
     cachedp := cachedp s; heap := heap s; world := w;
     reloaders := reloaders s; readers := readers s;
     published := published s |}.

Definition set_heap (h : list cell) (s : State) : State :=
  {| c_keystorePath := c_keystorePath s; c_keystorePass := c_keystorePass s;
     cachedp := cachedp s; heap := h; world := world s;
     reloaders := reloaders s; readers := readers s;
     published := published s |}.

Definition set_reloaders (l : list reloadPC) (s : State) : State :=
  {| c_keystorePath := c_keystorePath s; c_keystorePass := c_keystorePass s;
     cachedp := cachedp s; heap := heap s; world := world s;
     reloaders := l; readers := readers s;
     published := published s |}.

Definition set_readers (l : list readerPC) (s : State) : State :=
  {| c_keystorePath := c_keystorePath s; c_keystorePass := c_keystorePass s;
     cachedp := cachedp s; heap := heap s; world := world s;
     reloaders := reloaders s; readers := l;
     published := published s |}.

(** atomic.StorePointer(&c.cached, p) *)
Definition atomic_StorePointer (p : nat) (s : State) : State :=
  {| c_keystorePath := c_keystorePath s; c_keystorePass := c_keystorePass s;
     cachedp := Some p; heap := heap s; world := world s;
     reloaders := reloaders s; readers := readers s;
     published := p :: published s |}.

(** atomic.LoadPointer(&c.cached) *)
Definition atomic_LoadPointer (s : State) : option nat := cachedp s.

Definition set_Leaf (leaf : option X509) (b : cell) : cell :=
  {| Certificate := Certificate b; PrivateKey_ := PrivateKey_ b;
     Leaf := leaf |}.

(** One statement of [reload]. *)
Definition step_reload (pc : reloadPC) (s : State) : reloadPC * State :=
  match pc with
  | R_ReadFile =>
    let '((keystoreBytes, err), w) :=
      ioutil_ReadFile (c_keystorePath s) (world s) in
    (match err with
     | Some e => R_Returned (Some e)
     | None => R_ToPEM keystoreBytes
     end, set_world w s)
  | R_ToPEM keystoreBytes =>
    let '(pemBlocks, err) :=
      pkcs12_ToPEM L keystoreBytes (c_keystorePass s) in
    (match err with
     | Some e => R_Returned (Some e)
     | None => R_Encode pemBlocks
     end, s)
  | R_Encode pemBlocks => (R_X509KeyPair (encodeBlocks L pemBlocks), s)
  | R_X509KeyPair pemBytes =>
    let '(certAndKey, err) := tls_X509KeyPair L pemBytes pemBytes in
    let a := length (heap s) in
    (match err with
     | Some e => R_Returned (Some e)
     | None => R_ParseLeaf a
     end, set_heap (heap s ++ [certAndKey]) s)
  | R_ParseLeaf a =>
    match heap s !! a with
    | None => (R_Panicked, s)
    | Some certAndKey =>
      match Certificate certAndKey !! 0%nat with
      | None => (R_Panicked, s)
      | Some der =>
        let '(leaf, err) := x509_ParseCertificate L der in
        (R_SetLeaf a leaf err, s)
      end
    end
  | R_SetLeaf a leaf err =>
    (match err with
     | Some e => R_Returned (Some e)
     | None => R_Store a
     end, set_heap (alter (set_Leaf leaf) a (heap s)) s)
  | R_Store a => (R_Returned None, atomic_StorePointer a s)
  | R_Returned _ | R_Panicked => (pc, s)
  end.

Definition read_field (f : field) (b : cell) (seen : fieldsSeen)
  : fieldsSeen :=
  match f with
  | F_Certificate =>
    {| seenCertificate := Some (Certificate b);
       seenPrivateKey := seenPrivateKey seen; seenLeaf := seenLeaf seen |}
  | F_PrivateKey =>
    {| seenCertificate := seenCertificate seen;
       seenPrivateKey := Some (PrivateKey_ b); seenLeaf := seenLeaf seen |}
  | F_Leaf =>
    {| seenCertificate := seenCertificate seen;
       seenPrivateKey := seenPrivateKey seen; seenLeaf := Some (Leaf b) |}
  end.

(** One step of a handshake: the call of [getCertificate], or the read of
    field [f] through the pointer it returned. *)
Definition step_reader (f : field) (pc : readerPC) (s : State) : readerPC :=
  match pc with
  | G_Call _ => G_Got (atomic_LoadPointer s) nothingSeen
  | G_Got (Some a) seen =>
    match heap s !! a with
    | Some b => G_Got (Some a) (read_field f b seen)
    | None => pc
    end
  | G_Got None _ => pc
  end.

(** What the scheduler and the environment can do. *)
Inductive action :=
  | Spawn_reload
  | Spawn_reader (clientHello : option tls_ClientHelloInfo)
  | Step_reload (tid : nat)
  | Step_reader (tid : nat) (f : field)
  | Env_fs (files : string → bytes * option error).

Definition step (a : action) (s : State) : State :=
  match a with
  | Spawn_reload => set_reloaders (reloaders s ++ [R_ReadFile]) s
  | Spawn_reader hello => set_readers (readers s ++ [G_Call hello]) s
  | Step_reload tid =>
    match reloaders s !! tid with
    | Some pc =>
      let '(pc', s') := step_reload pc s in
      set_reloaders (<[tid := pc']> (reloaders s')) s'
    | None => s
    end
  | Step_reader tid f =>
    match readers s !! tid with
    | Some pc => set_readers (<[tid := step_reader f pc s]> (readers s)) s
    | None => s
    end
  | Env_fs files =>
    set_world {| fs := files; reads := reads (world s) |} s
  end.

Definition run (acts : list action) (s : State) : State :=
  fold_left (λ s a, step a s) acts s.

(** A [reload] running alone for [n] statements. *)
Fixpoint solo (n : nat) (pc : reloadPC) (s : State) : reloadPC * State :=
  match n with
  | O => (pc, s)
  | S n => let '(pc', s') := step_reload pc s in solo n pc' s'
  end.

(** The store as a caller sees it: the slot with the cell it points to. *)
Definition store_of (s : State) : certificate PrivateKey X509 :=
  {| keystorePath := c_keystorePath s; keystorePass := c_keystorePass s;
     cached := cachedp s ≫= λ a, heap s !! a |}.

(** What a call of [reload] that ends at [pc] has done. *)
Definition outcome (pc : reloadPC) : option (go (option error)) :=
  match pc with
  | R_Returned err => Some (Ret err)
  | R_Panicked => Some Panic
  | _ => None
  end.

(** A new store, as [buildCertificate] allocates it on line 39. *)
Definition init (keystorePath keystorePass : string) (w : World) : State :=
  {| c_keystorePath := keystorePath; c_keystorePass := keystorePass;
     cachedp := None; heap := []; world := w;
     reloaders := []; readers := []; published := [] |}.

End Concurrent.

(** * Vocabulary of the properties *)

Section Vocabulary.
Context {PrivateKey X509 : Type}.
Context (L : GoLibs PrivateKey X509).

Abbreviation store := (certificate PrivateKey X509).

(** The store [c] with [p] in its slot. *)
Definition with_cached (c : store)
                       (p : option (tls_Certificate PrivateKey X509))
  : store :=
  {| keystorePath := keystorePath c; keystorePass := keystorePass c;
     cached := p |}.

(** The four stages of [reload] that can fail. *)
Inductive stage := FileRead | ContainerDecode | KeyPairParse | LeafParse.

(** Stage [st] of a [reload] of [c] in the world [w] fails with [e], the
    error of its library call, the stages before it having succeeded. *)
Inductive stage_fails (c : store) (w : World) : stage → error → Prop :=
  | fails_read keystoreBytes e :
      fs w (keystorePath c) = (keystoreBytes, Some e) →
      stage_fails c w FileRead e
  | fails_decode keystoreBytes pemBlocks e :
      fs w (keystorePath c) = (keystoreBytes, None) →
      pkcs12_ToPEM L keystoreBytes (keystorePass c) = (pemBlocks, Some e) →
      stage_fails c w ContainerDecode e
  | fails_keypair keystoreBytes pemBlocks certAndKey e :
      fs w (keystorePath c) = (keystoreBytes, None) →
      pkcs12_ToPEM L keystoreBytes (keystorePass c) = (pemBlocks, None) →
      tls_X509KeyPair L (encodeBlocks L pemBlocks) (encodeBlocks L pemBlocks)
        = (certAndKey, Some e) →
      stage_fails c w KeyPairParse e
  | fails_leaf keystoreBytes pemBlocks certAndKey der leaf e :
      fs w (keystorePath c) = (keystoreBytes, None) →
      pkcs12_ToPEM L keystoreBytes (keystorePass c) = (pemBlocks, None) →
      tls_X509KeyPair L (encodeBlocks L pemBlocks) (encodeBlocks L pemBlocks)
        = (certAndKey, None) →
      Certificate certAndKey !! 0%nat = Some der →
      x509_ParseCertificate L der = (leaf, Some e) →
      stage_fails c w LeafParse e.

(** The keystore of [c] in the world [w] decodes to the bundle [b]: every
    stage succeeds, [b] is the key pair with its leaf parsed. *)
Inductive decodes (c : store) (w : World)
  : tls_Certificate PrivateKey X509 → Prop :=
  | decodes_intro keystoreBytes pemBlocks certAndKey der leaf :
      fs w (keystorePath c) = (keystoreBytes, None) →
      pkcs12_ToPEM L keystoreBytes (keystorePass c) = (pemBlocks, None) →
      tls_X509KeyPair L (encodeBlocks L pemBlocks) (encodeBlocks L pemBlocks)
        = (certAndKey, None) →
      Certificate certAndKey !! 0%nat = Some der →
      x509_ParseCertificate L der = (leaf, None) →
      decodes c w {| Certificate := Certificate certAndKey;
                     PrivateKey_ := PrivateKey_ certAndKey;
                     Leaf := leaf |}.

(** The stores a program can hold: a new one, and what calls of [reload]
    make of it, the files changing at will between the calls. *)
Inductive store_reachable : store → Prop :=
  | reachable_new path pass :
      store_reachable
        {| keystorePath := path; keystorePass := pass; cached := None |}
  | reachable_reload c w :
      store_reachable c →
      store_reachable (reload L c w).1.2.

(** The leaf metadata of [b] is the parse of the first certificate of its
    chain. *)
Definition formed (b : tls_Certificate PrivateKey X509) : Prop :=
  ∃ der, Certificate b !! 0%nat = Some der
         ∧ x509_ParseCertificate L der = (Leaf b, None).

(** ** What the program relies on from the libraries *)

(** x509.ParseCertificate returns a certificate when it returns no error. *)
Definition ParseCertificate_contract : Prop :=
  ∀ der leaf, x509_ParseCertificate L der = (leaf, None) → is_Some leaf.

(** tls.X509KeyPair returns no error only for a chain whose first
    certificate has the public key of the private key; [matches der key] is
    that correspondence. *)
Definition X509KeyPair_contract
    (matches : bytes → option PrivateKey → Prop) : Prop :=
  ∀ certPEMBlock keyPEMBlock certAndKey,
    tls_X509KeyPair L certPEMBlock keyPEMBlock = (certAndKey, None) →
    ∃ der, Certificate certAndKey !! 0%nat = Some der
           ∧ matches der (PrivateKey_ certAndKey).

(** AppendCertsFromPEM on a new pool reports ok exactly when it has added a
    certificate, and x509.NewCertPool is empty. *)
Definition AppendCertsFromPEM_contract : Prop :=
  x509_NewCertPool L = []
  ∧ ∀ pemCerts,
      (AppendCertsFromPEM L (x509_NewCertPool L) pemCerts).2 = true
      ↔ (AppendCertsFromPEM L (x509_NewCertPool L) pemCerts).1 ≠ [].

(** ** Invariant of the concurrent executions *)

(** The cell a running [reload] has allocated and not yet published. *)
Definition owns (pc : @reloadPC X509) : option nat :=
  match pc with
  | R_ParseLeaf a | R_SetLeaf a _ _ | R_Store a => Some a
  | _ => None
  end.

Definition finished (pc : @reloadPC X509) : Prop :=
  match pc with
  | R_Returned _ | R_Panicked => True
  | _ => False
  end.

(** Every field read so far is the field of [b]. *)
Definition agrees (seen : @fieldsSeen PrivateKey X509)
                  (b : tls_Certificate PrivateKey X509) : Prop :=
  (∀ chain, seenCertificate seen = Some chain → chain = Certificate b)
  ∧ (∀ key, seenPrivateKey seen = Some key → key = PrivateKey_ b)
  ∧ (∀ leaf, seenLeaf seen = Some leaf → leaf = Leaf b).

(** What holds of the cell [b] that a [reload] owns, at each of its
    statements. *)
Definition cell_ok (pc : @reloadPC X509)
                   (b : tls_Certificate PrivateKey X509) : Prop :=
  match pc with
  | R_SetLeaf _ leaf err =>
    ∃ der, Certificate b !! 0%nat = Some der
           ∧ x509_ParseCertificate L der = (leaf, err)
  | R_Store _ => formed b
  | _ => True
  end.

Definition pc_ok (h : list (tls_Certificate PrivateKey X509))
                 (pc : @reloadPC X509) : Prop :=
  ∀ a, owns pc = Some a → ∃ b, h !! a = Some b ∧ cell_ok pc b.

(** The invariant: the slot holds the latest published pointer; published
    cells exist and have their leaf; a running [reload] owns a cell that is
    not published and that no other [reload] owns; a handshake holds a
    published pointer and has read fields of its cell only. *)
Record Inv (s : @State PrivateKey X509) : Prop := {
  inv_cached : cachedp s = head (published s);
  inv_published :
    ∀ a, a ∈ published s → ∃ b, heap s !! a = Some b ∧ formed b;
  inv_reloaders :
    ∀ i pc, reloaders s !! i = Some pc →
      pc_ok (heap s) pc ∧ ∀ a, owns pc = Some a → a ∉ published s;
  inv_owners :
    ∀ i j pci pcj a,
      reloaders s !! i = Some pci → reloaders s !! j = Some pcj →
      owns pci = Some a → owns pcj = Some a → i = j;
  inv_readers :
    ∀ i p seen, readers s !! i = Some (G_Got p seen) →
      match p with
      | Some a => a ∈ published s ∧ ∃ b, heap s !! a = Some b ∧ agrees seen b
      | None => seen = nothingSeen
      end
}.

(** Handshake [i] has not yet called [getCertificate] in [s]. *)
Definition fresh_reader (s : @State PrivateKey X509) (i : nat) : Prop :=
  ∀ p seen, readers s !! i ≠ Some (G_Got p seen).

(** The action does not start another [reload]. *)
Definition no_spawn_reload (a : action) : Prop :=
  match a with
  | Spawn_reload => False
  | _ => True
  end.

(** Since [s0], where [old] was current, only the reload [r] has run: it has
    not published yet and every new handshake was given [old], or it has
    published [new] and returned, and every new handshake was given [old]
    or [new]. *)
Definition one_reload (s0 : @State PrivateKey X509) (r old : nat)
                      (s : @State PrivateKey X509) : Prop :=
  (∀ j pc, j ≠ r → reloaders s !! j = Some pc → finished pc)
  ∧ ((published s = published s0
      ∧ ∀ i p seen, fresh_reader s0 i →
          readers s !! i = Some (G_Got p seen) → p = Some old)
     ∨ (∃ new, published s = new :: published s0
          ∧ new ≠ old
          ∧ reloaders s !! r = Some (R_Returned None)
          ∧ ∀ i p seen, fresh_reader s0 i →
              readers s !! i = Some (G_Got p seen) →
              p = Some old ∨ p = Some new)).

(** ** Sequences of reloads *)

(** The store after one [reload] in each of the worlds [ws], in order: the
    files are whatever they are at the time of each call. *)
Definition reload_seq (ws : list World) (c : store) : store :=
  fold_left (λ c w, (reload L c w).1.2) ws c.

(** The keystore of [c] does not decode in [w]. *)
Definition undecodable (c : store) (w : World) : Prop :=
  ∀ b, ¬ decodes c w b.

(** ** Counting the reloads of an execution *)

Definition count {A : Type} (P : A → bool) (l : list A) : nat :=
  length (List.filter P l).

(** The [reload] is past its first statement, the read of line 54. *)
Definition has_read (pc : @reloadPC X509) : bool :=
  match pc with
  | R_ReadFile => false
  | _ => true
  end.

(** The [reload] has executed the store of line 79.  The return of line 80
    that follows it touches nothing shared and is taken with it as one
    step, so these are the reloads at [R_Returned None]. *)
Definition has_stored (pc : @reloadPC X509) : bool :=
  match pc with
  | R_Returned None => true
  | _ => false
  end.

(** Since [s0] the slot has only been stored to, [ext] being the pointers
    stored, the latest first; and a handshake that had not called in [s0]
    and has called since was given the pointer that was in the slot in
    [s0], or one of [ext]. *)
Definition latest_since (s0 s : @State PrivateKey X509) : Prop :=
  ∃ ext, published s = ext ++ published s0
         ∧ ∀ i p seen, fresh_reader s0 i →
             readers s !! i = Some (G_Got p seen) →
             p = cachedp s0 ∨ ∃ a, p = Some a ∧ a ∈ ext.

(** The [reload] has not panicked, and if it is about to read the first
    certificate of its key pair, there is one. *)
Definition chain_ok (h : list (tls_Certificate PrivateKey X509))
                    (pc : @reloadPC X509) : Prop :=
  match pc with
  | R_ParseLeaf a =>
    ∃ b der, h !! a = Some b ∧ Certificate b !! 0%nat = Some der
  | R_Panicked => False
  | _ => True
  end.

Definition no_panic (s : @State PrivateKey X509) : Prop :=
  ∀ i pc, reloaders s !! i = Some pc → chain_ok (heap s) pc.

End Vocabulary.

Arguments count : simpl never.

(** * A small platform to run the program on

    Library functions simple enough to evaluate: a keystore is the DER of its
    certificate, which is also its key, and is opened by the passphrase
    "secret"; a certificate whose first byte is zero does not parse. *)

Module Toy.

#[local] Instance byte_eq_dec : EqDecision Byte.byte := Byte.byte_eq_dec.

Definition ToPEM (pfxData : bytes) (password : string)
  : list pem_Block * option error :=
  if String.eqb password "secret" then
    match pfxData with
    | [] => ([], Some "pkcs12: error reading P12 data")
    | _ => ([ {| Type_ := "CERTIFICATE"; Headers := ∅; Bytes := pfxData |} ],
            None)
    end
  else ([], Some "pkcs12: decryption password incorrect").

Definition noCertificate : tls_Certificate bytes bytes :=
  {| Certificate := []; PrivateKey_ := None; Leaf := None |}.

Definition X509KeyPair (certPEMBlock keyPEMBlock : bytes)
  : tls_Certificate bytes bytes * option error :=
  match certPEMBlock with
  | [] => (noCertificate,
           Some "tls: failed to find any PEM data in certificate input")
  | _ =>
    if decide (certPEMBlock = keyPEMBlock) then
      ({| Certificate := [certPEMBlock]; PrivateKey_ := Some keyPEMBlock;
          Leaf := None |}, None)
    else (noCertificate, Some "tls: private key does not match public key")
  end.

Definition ParseCertificate (asn1Data : bytes)
  : option bytes * option error :=
  match asn1Data with
  | [] => (None, Some "asn1: syntax error: sequence truncated")
  | x00 :: _ => (None, Some "x509: malformed certificate")
  | _ => (Some asn1Data, None)
  end.

Definition AppendCerts (s : x509_CertPool bytes) (pemCerts : bytes)
  : x509_CertPool bytes * bool :=
  match pemCerts with
  | [] => (s, false)
  | _ => (s ++ [pemCerts], true)
  end.

(** The platform keeps its roots in one file. *)
Definition certFile : string := "/etc/ssl/certs/ca-certificates.crt".

Definition SystemCertPool (w : World)
  : (option (x509_CertPool bytes) * option error) * World :=
  let '((data, err), w) := ioutil_ReadFile certFile w in
  match err with
  | Some e => ((None, Some e), w)
  | None => ((Some (AppendCerts [] data).1, None), w)
  end.

Definition libs : GoLibs bytes bytes :=
  {| pkcs12_ToPEM := ToPEM;
     pem_EncodeToMemory := Bytes;
     tls_X509KeyPair := X509KeyPair;
     x509_ParseCertificate := ParseCertificate;
     x509_SystemCertPool := SystemCertPool;
     x509_NewCertPool := [];
     AppendCertsFromPEM := AppendCerts |}.

(** The private key is the DER of the certificate. *)
Definition matches (der : bytes) (key : option bytes) : Prop :=
  key = Some der.

Definition server1 : bytes := [x30; x01].
Definition server2 : bytes := [x30; x02].

(** A disk with a keystore, a keystore whose certificate does not parse, a
    CA bundle, an empty file and the roots of the platform. *)
Definition disk (keystore : bytes) (path : string) : bytes * option error :=
  if String.eqb path "/etc/keystore.p12" then (keystore, None)
  else if String.eqb path "/etc/badleaf.p12" then ([x00; x01], None)
  else if String.eqb path "/etc/ca-bundle.pem" then ([x2d; x2d], None)
  else if String.eqb path "/etc/empty.pem" then ([], None)
  else if String.eqb path "/etc/ssl/certs/ca-certificates.crt"
  then ([x01], None)
  else ([], Some "open: no such file or directory").

Definition w1 : World := {| fs := disk server1; reads := [] |}.
Definition w2 : World := {| fs := disk server2; reads := [] |}.

(** The disk after the keystore has been removed. *)
Definition gone : World :=
  {| fs := λ _, ([], Some "open: no such file or directory"); reads := [] |}.

(** The first disk again, later: a file has been read in between. *)
Definition w1_later : World :=
  {| fs := disk server1; reads := ["/etc/ca-bundle.pem"] |}.

Definition bundle (der : bytes) : tls_Certificate bytes bytes :=
  {| Certificate := [der]; PrivateKey_ := Some der; Leaf := Some der |}.

Definition store1 : certificate bytes bytes :=
  {| keystorePath := "/etc/keystore.p12"; keystorePass := "secret";
     cached := Some (bundle server1) |}.

(** The same store, configured with a passphrase that is not the one of
    the keystore. *)
Definition wrongpass : certificate bytes bytes :=
  {| keystorePath := "/etc/keystore.p12"; keystorePass := "letmein";
     cached := Some (bundle server1) |}.

Definition unloaded : certificate bytes bytes :=
  {| keystorePath := "/etc/keystore.p12"; keystorePass := "secret";
     cached := None |}.

(** An execution: the first load, then the keystore is replaced on disk
    and a second reload is started ... *)
Definition before : list action :=
  [ Spawn_reload;
    Step_reload 0; Step_reload 0; Step_reload 0; Step_reload 0;
    Step_reload 0; Step_reload 0; Step_reload 0;
    Env_fs (disk server2);
    Spawn_reload ].

(** ... and runs while a handshake calls [getCertificate] and reads the
    fields of what it got, some before and some after the store. *)
Definition during : list action :=
  [ Spawn_reader None;
    Step_reload 1; Step_reload 1; Step_reload 1; Step_reload 1;
    Step_reader 0 F_Leaf;
    Step_reader 0 F_Certificate;
    Step_reload 1; Step_reload 1; Step_reload 1;
    Step_reader 0 F_PrivateKey;
    Step_reader 0 F_Leaf ].

(** Two reloads race: the first has read the old keystore, the second the
    new one; the second publishes, a handshake calls, the first publishes,
    and the handshake reads the fields of what it was given. *)
Definition race : list action :=
  [ Spawn_reload; Spawn_reload;
    Step_reload 0;
    Env_fs (disk server2);
    Step_reload 1;
    Step_reload 0; Step_reload 0; Step_reload 0;
    Step_reload 1; Step_reload 1; Step_reload 1;
    Step_reload 1; Step_reload 1; Step_reload 1;
    Spawn_reader None; Step_reader 0 F_Leaf;
    Step_reload 0; Step_reload 0; Step_reload 0;
    Step_reader 0 F_Certificate; Step_reader 0 F_PrivateKey;
    Step_reader 0 F_Leaf ].

Definition seen2 : @fieldsSeen bytes bytes :=
  {| seenCertificate := Some [server2];
     seenPrivateKey := Some (Some server2);
     seenLeaf := Some (Some server2) |}.

Definition seen1 : @fieldsSeen bytes bytes :=
  {| seenCertificate := Some [server1];
     seenPrivateKey := Some (Some server1);
     seenLeaf := Some (Some server1) |}.

End Toy.

(** * The sequential program *)

Section Sequential.
Context {PrivateKey X509 : Type}.
Context (L : GoLibs PrivateKey X509).

Implicit Types (c : certificate PrivateKey X509) (w : World).
Implicit Types (b : tls_Certificate PrivateKey X509) (e : error).
Implicit Types (st : stage).

Ltac reload_stages c w :=
  unfold reload, ioutil_ReadFile;
  destruct (fs w (keystorePath c)) as [keystoreBytes [e1|]] eqn:Hread;
    cbn [fst snd];
  [| destruct (pkcs12_ToPEM L keystoreBytes (keystorePass c))
       as [pemBlocks [e2|]] eqn:Hpem;
     [| destruct (tls_X509KeyPair L (encodeBlocks L pemBlocks)
                                  (encodeBlocks L pemBlocks))
          as [certAndKey [e3|]] eqn:Hpair;
        [| destruct (Certificate certAndKey !! 0%nat) as [der|] eqn:Hder;
           [destruct (x509_ParseCertificate L der) as [leaf [e4|]] eqn:Hleaf
           |] ] ] ].

(** Whatever [reload] does, it has read the keystore file once. *)
Lemma reload_world c w :
  (reload L c w).2 = (ioutil_ReadFile (keystorePath c) w).2.
Proof. reload_stages c w; reflexivity. Qed.

Lemma reload_stage_fails c w st e :
  stage_fails L c w st e → (reload L c w).1 = (Ret (Some e), c).
Proof.
  intros H. unfold reload, ioutil_ReadFile.
  destruct H as [? ? Hr | ? ? ? Hr Hp | ? ? ? ? Hr Hp Hk
                | ? ? ? ? ? ? Hr Hp Hk Hd Hl].
  - rewrite Hr. reflexivity.
  - rewrite Hr, Hp. reflexivity.
  - rewrite Hr, Hp, Hk. reflexivity.
  - rewrite Hr, Hp, Hk, Hd, Hl. reflexivity.
Qed.

Lemma reload_decodes c w b :
  decodes L c w b → (reload L c w).1 = (Ret None, with_cached c (Some b)).
Proof.
  intros [? ? ? ? ? Hr Hp Hk Hd Hl]. unfold reload, ioutil_ReadFile.
  rewrite Hr, Hp, Hk, Hd, Hl. reflexivity.
Qed.

(** The three things a call of [reload] can do. *)
Lemma reload_cases c w :
  (∃ st e, stage_fails L c w st e ∧ (reload L c w).1 = (Ret (Some e), c))
  ∨ (∃ b, decodes L c w b
          ∧ (reload L c w).1 = (Ret None, with_cached c (Some b)))
  ∨ (reload L c w).1 = (Panic, c).
Proof.
  reload_stages c w.
  - left. exists FileRead, e1. split; [|reflexivity].
    eapply fails_read; eauto.
  - left. exists ContainerDecode, e2. split; [|reflexivity].
    eapply fails_decode; eauto.
  - left. exists KeyPairParse, e3. split; [|reflexivity].
    eapply fails_keypair; eauto.
  - left. exists LeafParse, e4. split; [|reflexivity].
    eapply fails_leaf; eauto.
  - right. left. eexists. split; [|reflexivity].
    eapply decodes_intro; eauto.
  - right. right. reflexivity.
Qed.

Lemma reload_error_is_stage_failure c w e :
  (reload L c w).1.1 = Ret (Some e) → ∃ st, stage_fails L c w st e.
Proof.
  destruct (reload_cases c w)
    as [(st & e' & Hf & Hr) | [(b & _ & Hr) | Hr]];
    rewrite Hr; cbn; intros [= <-]. by exists st.
Qed.

(** Unless it returns nil, [reload] leaves the store as it was. *)
Lemma reload_unchanged c w :
  (reload L c w).1.1 ≠ Ret None → (reload L c w).1.2 = c.
Proof.
  destruct (reload_cases c w)
    as [(st & e' & Hf & Hr) | [(b & _ & Hr) | Hr]];
    rewrite Hr; cbn; done.
Qed.


(** C1: a store with a published bundle [b], a reload that fails at any of
    its stages (file read, container decode, key-pair parse, leaf parse)
    with the error [e]: the call returns [e], the store is the one before
    the call, and [getCertificate] after it returns [b]. *)
Theorem reload_failure_keeps_current c w b hello st e :
  cached c = Some b →
  stage_fails L c w st e →
  (reload L c w).1.1 = Ret (Some e)
  ∧ (reload L c w).1.2 = c
  ∧ getCertificate (reload L c w).1.2 hello = (Some b, None).
Proof.
  intros Hb Hf. rewrite (reload_stage_fails c w st e Hf). cbn.
  unfold getCertificate. rewrite Hb. done.
Qed.

Lemma buildCertificate_reload path pass w :
  (buildCertificate L path pass w).1 =
    match (reload L {| keystorePath := path; keystorePass := pass;
                       cached := None |} w).1 with
    | (Panic, _) => Panic
    | (Ret (Some err), _) => Ret (None, Some err)
    | (Ret None, cert) => Ret (Some cert, None)
    end.
Proof.
  unfold buildCertificate.
  destruct (reload L _ w) as [[[[e|]|] c'] w']; reflexivity.
Qed.

(** C7: [buildCertificate] makes a store with an empty slot and reloads it.
    It returns the nil store and the error [e] exactly when a stage of that
    first load fails with [e], and then the slot of the store it dropped is
    still empty; it returns a store and the nil error exactly when the
    keystore decodes, and then the slot holds the decoded bundle. *)
Theorem buildCertificate_all_or_nothing path pass w :
  let new := {| keystorePath := path; keystorePass := pass;
                cached := None |} in
  (∀ e, (∃ st, stage_fails L new w st e)
        ↔ (buildCertificate L path pass w).1 = Ret (None, Some e))
  ∧ (∀ st e, stage_fails L new w st e →
             cached (reload L new w).1.2 = None)
  ∧ (∀ c, (∃ b, decodes L new w b ∧ c = with_cached new (Some b))
          ↔ (buildCertificate L path pass w).1 = Ret (Some c, None)).
Proof.
  intros new. rewrite buildCertificate_reload. fold new.
  split; [|split].
  - intros e. split.
    + intros [st Hf]. by rewrite (reload_stage_fails _ _ _ _ Hf).
    + destruct (reload_cases new w)
        as [(st & e' & Hf & Hr) | [(b & _ & Hr) | Hr]];
        rewrite Hr; intros [= <-]. by exists st.
  - intros st e Hf. by rewrite (reload_stage_fails _ _ _ _ Hf).
  - intros c. split.
    + intros (b & Hd & ->). by rewrite (reload_decodes _ _ _ Hd).
    + destruct (reload_cases new w)
        as [(st & e' & Hf & Hr) | [(b & Hd & Hr) | Hr]];
        rewrite Hr; intros [= <-]. by exists b.
Qed.

(** C3, as the code has it: on a store whose slot is empty
    [getCertificate] returns the nil certificate and the nil error. *)
Theorem getCertificate_unset c hello :
  cached c = None → getCertificate c hello = (None, None).
Proof. intros H. unfold getCertificate. by rewrite H. Qed.

(** A store that [buildCertificate] returns has a bundle in its slot. *)
Lemma buildCertificate_loaded path pass w c hello :
  (buildCertificate L path pass w).1 = Ret (Some c, None) →
  ∃ b, getCertificate c hello = (Some b, None).
Proof.
  rewrite buildCertificate_reload.
  destruct (reload_cases {| keystorePath := path; keystorePass := pass;
                            cached := None |} w)
    as [(st & e & _ & Hr) | [(b & _ & Hr) | Hr]];
    rewrite Hr; intros [= <-]. by exists b.
Qed.

(** C9: [getCertificate] returns the content of the slot and the nil error,
    whatever the store and the ClientHelloInfo; on a store whose slot was
    never filled, the nil certificate and the nil error. *)
Theorem getCertificate_never_errors c hello :
  (getCertificate c hello).2 = None
  ∧ (getCertificate c hello).1 = cached c
  ∧ getCertificate (with_cached c None) hello = (None, None).
Proof. done. Qed.

End Sequential.

Lemma reload_failure_keeps_current_witness :
  (reload Toy.libs Toy.wrongpass Toy.w2).1.1
    = Ret (Some "pkcs12: decryption password incorrect")
  ∧ (reload Toy.libs Toy.wrongpass Toy.w2).1.2 = Toy.wrongpass
  ∧ getCertificate (reload Toy.libs Toy.wrongpass Toy.w2).1.2 None
    = (Some (Toy.bundle Toy.server1), None).
Proof.
  apply (reload_failure_keeps_current Toy.libs Toy.wrongpass Toy.w2
           (Toy.bundle Toy.server1) None ContainerDecode
           "pkcs12: decryption password incorrect").
  - reflexivity.
  - eapply fails_decode; reflexivity.
Defined.

Lemma buildCertificate_all_or_nothing_witness :
  (buildCertificate Toy.libs "/etc/badleaf.p12" "secret" Toy.w1).1
    = Ret (None, Some "x509: malformed certificate")
  ∧ (buildCertificate Toy.libs "/etc/keystore.p12" "secret" Toy.w1).1
    = Ret (Some Toy.store1, None).
Proof.
  split.
  - apply (buildCertificate_all_or_nothing Toy.libs
             "/etc/badleaf.p12" "secret" Toy.w1).
    exists LeafParse. eapply fails_leaf; reflexivity.
  - apply (buildCertificate_all_or_nothing Toy.libs
             "/etc/keystore.p12" "secret" Toy.w1).
    exists (Toy.bundle Toy.server1). split; [|reflexivity].
    eapply (decodes_intro Toy.libs _ _ _ _
              {| Certificate := [Toy.server1];
                 PrivateKey_ := Some Toy.server1; Leaf := None |});
      reflexivity.
Defined.

(** C3, as the spec has it, fails: on a store that was never loaded
    [getCertificate] returns no error. *)
Lemma getCertificate_unset_no_error :
  cached Toy.unloaded = None
  ∧ ¬ ∃ e : error, (getCertificate Toy.unloaded None).2 = Some e.
Proof. split; [reflexivity|]. intros [e H]. discriminate H. Qed.

Lemma getCertificate_unset_witness :
  getCertificate Toy.unloaded None = (None, None).
Proof. apply (getCertificate_unset Toy.unloaded None). reflexivity. Defined.

(** * The trust bundle and the policy *)

Section Policy.
Context {PrivateKey X509 : Type}.
Context (L : GoLibs PrivateKey X509).

Implicit Types (w : World) (cfg : tls_Config X509).

(** [buildConfig] is [certBundle] followed by the assembly of the record. *)
Lemma buildConfig_certBundle caBundlePath w :
  buildConfig L caBundlePath w =
    match certBundle L caBundlePath w with
    | ((_, Some e), w') => ((None, Some e), w')
    | ((caBundle, None), w') =>
      ((Some {| RootCAs := caBundle; ClientCAs := caBundle;
                PreferServerCipherSuites := true;
                ClientAuth := tls_RequireAndVerifyClientCert;
                MinVersion := tls_VersionTLS12;
                CipherSuites :=
                  [ tls_TLS_ECDHE_RSA_WITH_AES_128_GCM_SHA256;
                    tls_TLS_ECDHE_ECDSA_WITH_AES_128_GCM_SHA256;
                    tls_TLS_ECDHE_RSA_WITH_AES_256_GCM_SHA384;
                    tls_TLS_ECDHE_ECDSA_WITH_AES_256_GCM_SHA384 ] |},
        None), w')
    end.
Proof.
  unfold buildConfig.
  destruct (certBundle L caBundlePath w) as [[caBundle [e|]] w'];
    reflexivity.
Qed.

(** [buildConfig] returns a configuration exactly when it returns no
    error. *)
Lemma buildConfig_result caBundlePath w :
  (buildConfig L caBundlePath w).1.2 = None
  ↔ is_Some (buildConfig L caBundlePath w).1.1.
Proof.
  rewrite buildConfig_certBundle.
  destruct (certBundle L caBundlePath w) as [[caBundle [e|]] w']; cbn.
  - split; [done | by intros [? ?]].
  - split; [eauto | done].
Qed.

(** C4: whenever [buildConfig] returns without error, it returns a
    configuration whose client authentication is require-and-verify, whose
    minimum version is TLS 1.2 (0x0303), whose cipher suites are the four
    ECDHE AES-GCM suites and nothing else, and which prefers the order of
    the server, whatever the trust bundle. *)
Theorem buildConfig_policy caBundlePath w :
  (buildConfig L caBundlePath w).1.2 = None →
  ∃ cfg, (buildConfig L caBundlePath w).1.1 = Some cfg
    ∧ ClientAuth cfg = tls_RequireAndVerifyClientCert
    ∧ MinVersion cfg = tls_VersionTLS12
    ∧ MinVersion cfg = 0x0303%Z
    ∧ CipherSuites cfg =
        [ tls_TLS_ECDHE_RSA_WITH_AES_128_GCM_SHA256;
          tls_TLS_ECDHE_ECDSA_WITH_AES_128_GCM_SHA256;
          tls_TLS_ECDHE_RSA_WITH_AES_256_GCM_SHA384;
          tls_TLS_ECDHE_ECDSA_WITH_AES_256_GCM_SHA384 ]
    ∧ (∀ id, id ∈ CipherSuites cfg
             ↔ id = 0xc02f%Z ∨ id = 0xc02b%Z ∨ id = 0xc030%Z
               ∨ id = 0xc02c%Z)
    ∧ NoDup (CipherSuites cfg)
    ∧ length (CipherSuites cfg) = 4%nat
    ∧ PreferServerCipherSuites cfg = true.
Proof.
  rewrite buildConfig_certBundle.
  destruct (certBundle L caBundlePath w) as [[caBundle [e|]] w']; cbn;
    [done|].
  intros _. eexists. split; [reflexivity|]. cbn.
  repeat split; try reflexivity.
  - rewrite !elem_of_cons, elem_of_nil.
    unfold tls_TLS_ECDHE_RSA_WITH_AES_128_GCM_SHA256,
      tls_TLS_ECDHE_ECDSA_WITH_AES_128_GCM_SHA256,
      tls_TLS_ECDHE_RSA_WITH_AES_256_GCM_SHA384,
      tls_TLS_ECDHE_ECDSA_WITH_AES_256_GCM_SHA384. tauto.
  - rewrite !elem_of_cons, elem_of_nil.
    unfold tls_TLS_ECDHE_RSA_WITH_AES_128_GCM_SHA256,
      tls_TLS_ECDHE_ECDSA_WITH_AES_128_GCM_SHA256,
      tls_TLS_ECDHE_RSA_WITH_AES_256_GCM_SHA384,
      tls_TLS_ECDHE_ECDSA_WITH_AES_256_GCM_SHA384. tauto.
  - unfold tls_TLS_ECDHE_RSA_WITH_AES_128_GCM_SHA256,
      tls_TLS_ECDHE_ECDSA_WITH_AES_128_GCM_SHA256,
      tls_TLS_ECDHE_RSA_WITH_AES_256_GCM_SHA384,
      tls_TLS_ECDHE_ECDSA_WITH_AES_256_GCM_SHA384.
    repeat (apply NoDup_cons_2;
            [rewrite ?elem_of_cons, ?elem_of_nil; lia|]).
    apply NoDup_nil_2.
Qed.

(** C5, as the code has it: for the empty path [certBundle] is the call of
    x509.SystemCertPool and nothing else: it returns its pool and its
    error, it fails only when that call fails, and the only files read are
    the ones that call reads.  And whenever [certBundle] returns no error
    for a path, [buildConfig] returns a configuration for it, which has in
    both RootCAs and ClientCAs the pool that [certBundle] returned. *)
Theorem certBundle_empty_path w :
  certBundle L "" w = x509_SystemCertPool L w
  ∧ (∀ e, (certBundle L "" w).1.2 = Some e
          ↔ (x509_SystemCertPool L w).1.2 = Some e)
  ∧ (∀ caBundlePath w',
       (certBundle L caBundlePath w').1.2 = None →
       ∃ cfg, (buildConfig L caBundlePath w').1 = (Some cfg, None)
              ∧ RootCAs cfg = (certBundle L caBundlePath w').1.1
              ∧ ClientCAs cfg = (certBundle L caBundlePath w').1.1)
  ∧ (∀ caBundlePath w' cfg,
       (buildConfig L caBundlePath w').1.1 = Some cfg →
       RootCAs cfg = (certBundle L caBundlePath w').1.1
       ∧ ClientCAs cfg = (certBundle L caBundlePath w').1.1).
Proof.
  split; [reflexivity|]. split; [done|]. split.
  - intros caBundlePath w' Herr. rewrite buildConfig_certBundle.
    destruct (certBundle L caBundlePath w') as [[caBundle [e|]] w''];
      cbn in *; [done|].
    eexists. split; [reflexivity|]. done.
  - intros caBundlePath w' cfg Hcfg.
    rewrite buildConfig_certBundle in Hcfg.
    destruct (certBundle L caBundlePath w') as [[caBundle [e|]] w''];
      cbn in *; [done|].
    by injection Hcfg as <-.
Qed.

(** C6: for a path that is not empty and a library whose
    AppendCertsFromPEM reports whether it added a certificate:
    [certBundle] reads the file once; when the read fails, it returns no
    pool and the error of the read; when the bytes yield no certificate, it
    returns no pool and the error "unable to parse ca-bundle"; and a pool
    it returns is the new pool with the certificates of the file, of
    which there is at least one. *)
Theorem certBundle_file caBundlePath w :
  caBundlePath ≠ "" →
  AppendCertsFromPEM_contract L →
  reads (certBundle L caBundlePath w).2 = reads w ++ [caBundlePath]
  ∧ (∀ e, (fs w caBundlePath).2 = Some e →
          (certBundle L caBundlePath w).1 = (None, Some e))
  ∧ ((fs w caBundlePath).2 = None →
     (AppendCertsFromPEM L (x509_NewCertPool L) (fs w caBundlePath).1).1
       = [] →
     (certBundle L caBundlePath w).1
       = (None, Some "unable to parse ca-bundle"))
  ∧ (∀ bundle, (certBundle L caBundlePath w).1.1 = Some bundle →
       (certBundle L caBundlePath w).1.2 = None
       ∧ (fs w caBundlePath).2 = None
       ∧ bundle = (AppendCertsFromPEM L (x509_NewCertPool L)
                     (fs w caBundlePath).1).1
       ∧ bundle ≠ []).
Proof.
  intros Hpath [Hnew Hok]. unfold certBundle, ioutil_ReadFile.
  destruct (decide (caBundlePath = "")) as [|_]; [done|].
  destruct (fs w caBundlePath) as [caBundleBytes [e|]] eqn:Hread; cbn.
  { repeat split; try done. by intros e' [= <-]. }
  specialize (Hok caBundleBytes).
  destruct (AppendCertsFromPEM L (x509_NewCertPool L) caBundleBytes)
    as [bundle [|]] eqn:Happend; cbn in *.
  - split; [done|]. split; [done|]. split.
    + intros _ ->. exfalso. by apply Hok.
    + intros ? [= <-]. repeat split; try done. by apply Hok.
  - repeat split; done.
Qed.

End Policy.

Lemma buildConfig_policy_witness :
  ∃ cfg, (buildConfig Toy.libs "/etc/ca-bundle.pem" Toy.w1).1.1 = Some cfg
    ∧ ClientAuth cfg = tls_RequireAndVerifyClientCert
    ∧ MinVersion cfg = tls_VersionTLS12
    ∧ MinVersion cfg = 0x0303%Z
    ∧ CipherSuites cfg =
        [ tls_TLS_ECDHE_RSA_WITH_AES_128_GCM_SHA256;
          tls_TLS_ECDHE_ECDSA_WITH_AES_128_GCM_SHA256;
          tls_TLS_ECDHE_RSA_WITH_AES_256_GCM_SHA384;
          tls_TLS_ECDHE_ECDSA_WITH_AES_256_GCM_SHA384 ]
    ∧ (∀ id, id ∈ CipherSuites cfg
             ↔ id = 0xc02f%Z ∨ id = 0xc02b%Z ∨ id = 0xc030%Z ∨ id = 0xc02c%Z)
    ∧ NoDup (CipherSuites cfg)
    ∧ length (CipherSuites cfg) = 4%nat
    ∧ PreferServerCipherSuites cfg = true.
Proof.
  apply (buildConfig_policy Toy.libs "/etc/ca-bundle.pem" Toy.w1).
  reflexivity.
Defined.

(** C5, as the spec has it, fails: on a platform whose x509.SystemCertPool
    loads its roots from a file, [certBundle] on the empty path has that
    file read. *)
Lemma certBundle_empty_path_reads_roots :
  reads Toy.w1 = []
  ∧ reads (certBundle Toy.libs "" Toy.w1).2
    = ["/etc/ssl/certs/ca-certificates.crt"]
  ∧ reads (certBundle Toy.libs "" Toy.w1).2 ≠ reads Toy.w1.
Proof. split; [reflexivity|]. split; [reflexivity|]. discriminate. Qed.

Lemma certBundle_empty_path_witness :
  (certBundle Toy.libs "" Toy.w1).1 = (Some [[x01]], None)
  ∧ ∃ cfg, (buildConfig Toy.libs "" Toy.w1).1 = (Some cfg, None)
           ∧ RootCAs cfg = Some [[x01]]
           ∧ ClientCAs cfg = Some [[x01]].
Proof.
  destruct (certBundle_empty_path Toy.libs Toy.w1) as (_ & _ & H & _).
  split; [reflexivity|]. apply (H "" Toy.w1). reflexivity.
Defined.

Lemma toy_AppendCertsFromPEM_contract : AppendCertsFromPEM_contract Toy.libs.
Proof.
  split; [reflexivity|]. intros [|x pemCerts]; cbn; split; done.
Qed.

Lemma certBundle_file_witness :
  (certBundle Toy.libs "/etc/missing.pem" Toy.w1).1
    = (None, Some "open: no such file or directory")
  ∧ (certBundle Toy.libs "/etc/empty.pem" Toy.w1).1
    = (None, Some "unable to parse ca-bundle")
  ∧ reads (certBundle Toy.libs "/etc/ca-bundle.pem" Toy.w1).2
    = ["/etc/ca-bundle.pem"].
Proof.
  split; [|split].
  - apply (certBundle_file Toy.libs "/etc/missing.pem" Toy.w1);
      [discriminate | exact toy_AppendCertsFromPEM_contract | reflexivity].
  - apply (certBundle_file Toy.libs "/etc/empty.pem" Toy.w1);
      [discriminate | exact toy_AppendCertsFromPEM_contract
      | reflexivity | reflexivity].
  - apply (certBundle_file Toy.libs "/etc/ca-bundle.pem" Toy.w1);
      [discriminate | exact toy_AppendCertsFromPEM_contract].
Defined.

(** * The bundles that get published *)

Section Bundles.
Context {PrivateKey X509 : Type}.
Context (L : GoLibs PrivateKey X509).

Implicit Types (c : certificate PrivateKey X509) (w : World).
Implicit Types (b : tls_Certificate PrivateKey X509) (e : error).

(** A decoded bundle has the chain and the key of the key pair, and the
    parse of its first certificate as leaf. *)
Lemma decodes_formed c w b : decodes L c w b → formed L b.
Proof.
  intros [ks blocks ck der leaf _ _ _ Hder Hleaf]. exists der. done.
Qed.

Lemma reachable_formed c b :
  store_reachable L c → cached c = Some b → formed L b.
Proof.
  intros Hc. revert b. induction Hc as [path pass | c w Hc IH]; intros b.
  - done.
  - destruct (reload_cases L c w)
      as [(st & e & _ & Hr) | [(b' & Hd & Hr) | Hr]]; rewrite Hr; cbn.
    + apply IH.
    + intros [= <-]. by eapply decodes_formed.
    + apply IH.
Qed.

(** C8: with a tls.X509KeyPair that accepts only a private key matching
    the first certificate, the bundle that a successful decode yields, and
    that [reload] then publishes, has a private key matching its first
    certificate; and a pair that does not match makes [reload] return the
    error of tls.X509KeyPair with the store as it was. *)
Theorem reload_key_matches_leaf matches c w b :
  X509KeyPair_contract L matches →
  decodes L c w b →
  (∃ der, Certificate b !! 0%nat = Some der ∧ matches der (PrivateKey_ b))
  ∧ (reload L c w).1 = (Ret None, with_cached c (Some b))
  ∧ (∀ c' w' keystoreBytes pemBlocks certAndKey err,
       fs w' (keystorePath c') = (keystoreBytes, None) →
       pkcs12_ToPEM L keystoreBytes (keystorePass c') = (pemBlocks, None) →
       tls_X509KeyPair L (encodeBlocks L pemBlocks)
                         (encodeBlocks L pemBlocks) = (certAndKey, err) →
       (¬ ∃ der, Certificate certAndKey !! 0%nat = Some der
                 ∧ matches der (PrivateKey_ certAndKey)) →
       ∃ e, err = Some e ∧ (reload L c' w').1 = (Ret (Some e), c')).
Proof.
  intros Hlib Hd. split; [|split].
  - destruct Hd as [ks blocks ck der leaf _ _ Hpair Hder Hleaf]. cbn.
    destruct (Hlib _ _ _ Hpair) as (der' & Hder' & Hm).
    exists der'. done.
  - by apply reload_decodes.
  - intros c' w' ks blocks ck [e|] Hread Hpem Hpair Hno.
    + exists e. split; [done|].
      eapply reload_stage_fails, fails_keypair; eauto.
    + destruct Hno. by eapply Hlib.
Qed.

(** C10: with an x509.ParseCertificate that returns a certificate whenever
    it returns no error, the bundle in the slot of any store the program
    can hold has a chain with a first certificate and, as its leaf, the
    certificate that first one parses to; and a [reload] whose leaf parse
    fails returns the error with the store as it was. *)
Theorem published_bundle_has_leaf c b :
  ParseCertificate_contract L →
  store_reachable L c →
  cached c = Some b →
  (∃ der leaf, Certificate b !! 0%nat = Some der
               ∧ Leaf b = Some leaf
               ∧ x509_ParseCertificate L der = (Some leaf, None))
  ∧ (∀ w e, stage_fails L c w LeafParse e →
            (reload L c w).1 = (Ret (Some e), c)).
Proof.
  intros Hlib Hc Hb. split.
  - destruct (reachable_formed c b Hc Hb) as (der & Hder & Hleaf).
    destruct (Hlib _ _ Hleaf) as [leaf Hsome].
    exists der, leaf. rewrite <- Hsome. done.
  - intros w e Hf. by eapply reload_stage_fails.
Qed.

End Bundles.

Lemma toy_X509KeyPair_contract : X509KeyPair_contract Toy.libs Toy.matches.
Proof.
  intros certPEM keyPEM ck. cbn. unfold Toy.X509KeyPair.
  destruct certPEM as [|x certPEM]; [done|].
  destruct (decide (x :: certPEM = keyPEM)) as [<-|]; [|done].
  intros [= <-]. exists (x :: certPEM). done.
Qed.

Lemma toy_ParseCertificate_contract : ParseCertificate_contract Toy.libs.
Proof.
  intros der leaf. cbn. unfold Toy.ParseCertificate.
  destruct der as [|x der]; [done|].
  destruct x; intros [= <-]; eauto.
Qed.

Lemma toy_decodes : decodes Toy.libs Toy.unloaded Toy.w1 (Toy.bundle Toy.server1).
Proof.
  eapply (decodes_intro Toy.libs _ _ _ _
            {| Certificate := [Toy.server1];
               PrivateKey_ := Some Toy.server1; Leaf := None |});
    reflexivity.
Qed.

Lemma reload_key_matches_leaf_witness :
  (∃ der, Certificate (Toy.bundle Toy.server1) !! 0%nat = Some der
          ∧ Toy.matches der (PrivateKey_ (Toy.bundle Toy.server1)))
  ∧ (reload Toy.libs Toy.unloaded Toy.w1).1 = (Ret None, Toy.store1).
Proof.
  destruct (reload_key_matches_leaf Toy.libs Toy.matches Toy.unloaded Toy.w1
              (Toy.bundle Toy.server1)) as (H1 & H2 & _).
  - exact toy_X509KeyPair_contract.
  - exact toy_decodes.
  - split; [exact H1 | exact H2].
Defined.

Lemma toy_store1_reachable : store_reachable Toy.libs Toy.store1.
Proof.
  replace Toy.store1 with (reload Toy.libs Toy.unloaded Toy.w1).1.2
    by reflexivity.
  apply reachable_reload, reachable_new.
Qed.

Lemma published_bundle_has_leaf_witness :
  ∃ der leaf, Certificate (Toy.bundle Toy.server1) !! 0%nat = Some der
              ∧ Leaf (Toy.bundle Toy.server1) = Some leaf
              ∧ Toy.ParseCertificate der = (Some leaf, None).
Proof.
  apply (published_bundle_has_leaf Toy.libs Toy.store1
           (Toy.bundle Toy.server1)).
  - exact toy_ParseCertificate_contract.
  - exact toy_store1_reachable.
  - reflexivity.
Defined.

(** * The concurrent executions *)

Section Executions.
Context {PrivateKey X509 : Type}.
Context (L : GoLibs PrivateKey X509).

Implicit Types (s : @State PrivateKey X509) (pc : @reloadPC X509).
Implicit Types (b : tls_Certificate PrivateKey X509).
Implicit Types (h : list (tls_Certificate PrivateKey X509)).

Lemma Inv_init path pass w : Inv L (init path pass w).
Proof.
  split; cbn; try done.
  - intros a Ha. by apply elem_of_nil in Ha.
Qed.

Lemma agrees_nothingSeen b : agrees nothingSeen b.
Proof. repeat split; intros ? [=]. Qed.

Lemma agrees_read_field f b seen :
  agrees seen b → agrees (read_field f b seen) b.
Proof.
  intros (Hc & Hk & Hl).
  destruct f; repeat split; cbn; auto; by intros ? [= <-].
Qed.

(** A statement of [reload] that writes nothing but cells of its own, or a
    new cell, keeps the invariant. *)
Lemma Inv_reload_step s s' tid pc pc' :
  Inv L s →
  reloaders s !! tid = Some pc →
  cachedp s' = cachedp s →
  published s' = published s →
  readers s' = readers s →
  reloaders s' = <[tid := pc']> (reloaders s) →
  (∀ a b, heap s !! a = Some b → owns pc ≠ Some a →
          heap s' !! a = Some b) →
  pc_ok L (heap s') pc' →
  (∀ a, owns pc' = Some a → owns pc = Some a ∨ heap s !! a = None) →
  Inv L s'.
Proof.
  intros [Hc Hp Hr Ho Hg] Htid Ec Ep Eg Er Hframe Hok Hown.
  assert (Hpub : ∀ a b, a ∈ published s → heap s !! a = Some b →
                        heap s' !! a = Some b).
  { intros a b Ha Hb. apply Hframe; [done|]. intros Hpc.
    by apply (proj2 (Hr _ _ Htid) a). }
  split.
  - by rewrite Ec, Ep.
  - rewrite Ep. intros a Ha. destruct (Hp a Ha) as (b & Hb & Hf).
    exists b. split; [by apply Hpub | done].
  - rewrite Er, Ep. intros i pci Hi.
    destruct (decide (i = tid)) as [->|Hne].
    + apply list_lookup_insert_Some in Hi as [(_ & <- & _) | (? & _)];
        [|done].
      split; [done|]. intros a Ha.
      destruct (Hown a Ha) as [Hold | Hnew].
      * by apply (proj2 (Hr _ _ Htid)).
      * intros Hin. destruct (Hp a Hin) as (b & Hb & _). congruence.
    + rewrite list_lookup_insert_ne in Hi by done.
      destruct (Hr _ _ Hi) as [Hoki Hnp]. split; [|done].
      intros a Ha. destruct (Hoki a Ha) as (b & Hb & Hcell).
      exists b. split; [|done]. apply Hframe; [done|].
      intros Hpc. apply Hne. by eapply (Ho i tid).
  - rewrite Er. intros i j pci pcj a Hi Hj Hoi Hoj.
    destruct (decide (i = j)) as [|Hij]; [done|]. exfalso.
    assert (Hcase : ∀ k pck, k ≠ tid → reloaders s !! k = Some pck →
                             owns pck = Some a → owns pc' ≠ Some a).
    { intros k pck Hk Hlk Hok' Hpc'.
      destruct (Hown a Hpc') as [Hold | Hnew].
      - apply Hk. by eapply (Ho k tid).
      - destruct (proj1 (Hr _ _ Hlk) a Hok') as (b & Hb & _). congruence. }
    destruct (decide (i = tid)) as [->|Hi'];
      destruct (decide (j = tid)) as [->|Hj']; try done.
    + apply list_lookup_insert_Some in Hi as [(_ & <- & _) | (? & _)];
        [|done].
      rewrite list_lookup_insert_ne in Hj by done.
      by eapply (Hcase j).
    + apply list_lookup_insert_Some in Hj as [(_ & <- & _) | (? & _)];
        [|done].
      rewrite list_lookup_insert_ne in Hi by done.
      by eapply (Hcase i).
    + rewrite list_lookup_insert_ne in Hi, Hj by done.
      apply Hij. by eapply Ho.
  - rewrite Eg, Ep. intros i p seen Hi. specialize (Hg i p seen Hi).
    destruct p as [a|]; [|done]. destruct Hg as (Ha & b & Hb & Hag).
    split; [done|]. exists b. split; [by apply Hpub | done].
Qed.

(** The publication itself: line 79. *)
Lemma Inv_store s s' tid a :
  Inv L s →
  reloaders s !! tid = Some (R_Store a) →
  cachedp s' = Some a →
  published s' = a :: published s →
  heap s' = heap s →
  readers s' = readers s →
  reloaders s' = <[tid := R_Returned None]> (reloaders s) →
  Inv L s'.
Proof.
  intros [Hc Hp Hr Ho Hg] Htid Ec Ep Eh Eg Er.
  split.
  - by rewrite Ec, Ep.
  - rewrite Ep, Eh. intros a' [->|Ha]%elem_of_cons; [|by apply Hp].
    by apply (proj1 (Hr _ _ Htid) a).
  - rewrite Er, Ep, Eh. intros i pci Hi.
    destruct (decide (i = tid)) as [->|Hne].
    + apply list_lookup_insert_Some in Hi as [(_ & <- & _) | (? & _)];
        [|done].
      split; by intros ? [=].
    + rewrite list_lookup_insert_ne in Hi by done.
      destruct (Hr _ _ Hi) as [Hoki Hnp]. split; [done|].
      intros a' Ha' [->|Hin]%elem_of_cons; [|by eapply Hnp].
      apply Hne. by eapply (Ho i tid).
  - rewrite Er. intros i j pci pcj a' Hi Hj Hoi Hoj.
    destruct (decide (i = tid)) as [->|Hi'].
    { apply list_lookup_insert_Some in Hi as [(_ & <- & _) | (? & _)];
        done. }
    destruct (decide (j = tid)) as [->|Hj'].
    { apply list_lookup_insert_Some in Hj as [(_ & <- & _) | (? & _)];
        done. }
    rewrite list_lookup_insert_ne in Hi, Hj by done. by eapply Ho.
  - rewrite Eg, Ep, Eh. intros i p seen Hi. specialize (Hg i p seen Hi).
    destruct p as [a'|]; [|done]. destruct Hg as (Ha & Hb).
    split; [|done]. by apply elem_of_cons; right.
Qed.

(** A step of a handshake writes nothing shared. *)
Lemma Inv_reader_step s s' tid f gpc :
  Inv L s →
  readers s !! tid = Some gpc →
  cachedp s' = cachedp s →
  published s' = published s →
  heap s' = heap s →
  reloaders s' = reloaders s →
  readers s' = <[tid := step_reader f gpc s]> (readers s) →
  Inv L s'.
Proof.
  intros [Hc Hp Hr Ho Hg] Htid Ec Ep Eh Er Eg.
  split.
  - by rewrite Ec, Ep.
  - by rewrite Ep, Eh.
  - by rewrite Er, Ep, Eh.
  - by rewrite Er.
  - rewrite Eg, Ep, Eh. intros i p seen Hi.
    destruct (decide (i = tid)) as [->|Hne];
      [|rewrite list_lookup_insert_ne in Hi by done; by apply (Hg i)].
    apply list_lookup_insert_Some in Hi as [(_ & Hi & _) | (? & _)];
      [|done].
    destruct gpc as [hello | [a|] seen0]; cbn in Hi.
    + injection Hi as <- <-. unfold atomic_LoadPointer. rewrite Hc.
      destruct (published s) as [|a l] eqn:Hl; cbn; [done|].
      assert (Ha : a ∈ a :: l) by (apply elem_of_cons; by left).
      split; [done|].
      destruct (Hp a Ha) as (b & Hb & _).
      exists b. split; [done | apply agrees_nothingSeen].
    + specialize (Hg _ _ _ Htid). cbn in Hg.
      destruct Hg as (Ha & b & Hb & Hag). rewrite Hb in Hi.
      injection Hi as <- <-. split; [done|]. exists b.
      split; [done | by apply agrees_read_field].
    + injection Hi as <- <-. by apply (Hg _ _ _ Htid).
Qed.

Lemma Inv_spawn_reload s s' :
  Inv L s →
  cachedp s' = cachedp s →
  published s' = published s →
  heap s' = heap s →
  readers s' = readers s →
  reloaders s' = reloaders s ++ [R_ReadFile] →
  Inv L s'.
Proof.
  intros [Hc Hp Hr Ho Hg] Ec Ep Eh Eg Er.
  assert (Hnew : ∀ i pc, (reloaders s ++ [R_ReadFile]) !! i = Some pc →
                         reloaders s !! i = Some pc ∨ pc = R_ReadFile).
  { intros i pc [Hi | (_ & Hi)]%lookup_app_Some; [by left|]. right.
    apply list_lookup_singleton_Some in Hi as [_ <-]. done. }
  split.
  - by rewrite Ec, Ep.
  - by rewrite Ep, Eh.
  - rewrite Er, Ep, Eh. intros i pc [Hi | ->]%Hnew; [by eapply Hr|].
    split; by intros ? [=].
  - rewrite Er. intros i j pci pcj a [Hi | ->]%Hnew [Hj | ->]%Hnew;
      try done. by eapply Ho.
  - by rewrite Eg, Ep, Eh.
Qed.

Lemma Inv_spawn_reader s s' hello :
  Inv L s →
  cachedp s' = cachedp s →
  published s' = published s →
  heap s' = heap s →
  reloaders s' = reloaders s →
  readers s' = readers s ++ [G_Call hello] →
  Inv L s'.
Proof.
  intros [Hc Hp Hr Ho Hg] Ec Ep Eh Er Eg.
  split.
  - by rewrite Ec, Ep.
  - by rewrite Ep, Eh.
  - by rewrite Er, Ep, Eh.
  - by rewrite Er.
  - rewrite Eg, Ep, Eh.
    intros i p seen [Hi | (_ & Hi)]%lookup_app_Some; [by apply (Hg i)|].
    by apply list_lookup_singleton_Some in Hi as [_ [=]].
Qed.

Lemma pc_ok_no_cell h pc : owns pc = None → pc_ok L h pc.
Proof. intros H a. by rewrite H. Qed.

Ltac reload_step_with s tid pc :=
  eapply (Inv_reload_step s _ tid pc); eauto; cbn;
  try (apply pc_ok_no_cell; reflexivity); try by intros ? [=].

Lemma step_Inv act s : Inv L s → Inv L (step L act s).
Proof.
  intros HI. destruct act as [| hello | tid | tid f | files]; cbn.
  - by eapply Inv_spawn_reload.
  - by eapply Inv_spawn_reader.
  - destruct (reloaders s !! tid) as [pc|] eqn:Htid; [|done].
    pose proof (inv_reloaders _ _ HI _ _ Htid) as [Hok _].
    destruct pc as [| ks | blocks | pemBytes | a | a leaf err | a | err |];
      cbn.
    + destruct (fs (world s) (c_keystorePath s)) as [ks [e|]]; cbn;
        reload_step_with s tid (@R_ReadFile X509).
    + destruct (pkcs12_ToPEM L ks (c_keystorePass s)) as [blocks [e|]]; cbn;
        reload_step_with s tid (@R_ToPEM X509 ks).
    + reload_step_with s tid (@R_Encode X509 blocks).
    + destruct (tls_X509KeyPair L pemBytes pemBytes) as [ck [e|]]; cbn;
        reload_step_with s tid (@R_X509KeyPair X509 pemBytes).
      * intros a b Hb _. by apply lookup_app_l_Some.
      * intros a b Hb _. by apply lookup_app_l_Some.
      * intros a [= <-]. exists ck. split; [|done].
        by rewrite lookup_app_r, Nat.sub_diag by lia.
      * intros a [= <-]. right. by apply lookup_ge_None.
    + destruct (Hok a eq_refl) as (b & Hb & _). rewrite Hb.
      destruct (Certificate b !! 0%nat) as [der|] eqn:Hder; cbn.
      * destruct (x509_ParseCertificate L der) as [leaf err] eqn:Hleaf; cbn.
        reload_step_with s tid (@R_ParseLeaf X509 a).
        intros a' [= <-]. exists b. split; [done|]. by exists der.
      * reload_step_with s tid (@R_ParseLeaf X509 a).
    + destruct (Hok a eq_refl) as (b & Hb & der & Hder & Hleaf).
      assert (Hframe : ∀ a' b', heap s !! a' = Some b' →
                Some a ≠ Some a' →
                alter (set_Leaf leaf) a (heap s) !! a' = Some b').
      { intros a' b' Hb' Hne. rewrite list_lookup_alter_ne; [done|].
        congruence. }
      destruct err as [e|]; cbn.
      * reload_step_with s tid (@R_SetLeaf X509 a leaf (Some e)).
      * reload_step_with s tid (@R_SetLeaf X509 a leaf None).
        intros a' [= <-]. exists (set_Leaf leaf b). split.
        -- by rewrite list_lookup_alter_eq, Hb.
        -- exists der. done.
    + by eapply (Inv_store s _ tid a).
    + reload_step_with s tid (@R_Returned X509 err).
    + reload_step_with s tid (@R_Panicked X509).
  - destruct (readers s !! tid) as [gpc|] eqn:Htid; [|done].
    by eapply Inv_reader_step.
  - by destruct HI.
Qed.

Lemma run_Inv acts s : Inv L s → Inv L (run L acts s).
Proof.
  revert s. induction acts as [|act acts IH]; intros s HI; [done|].
  change (run L (act :: acts) s) with (run L acts (step L act s)).
  apply IH. by apply step_Inv.
Qed.

(** What a statement of [reload] leaves alone: the threads, and the slot
    unless the statement is the store of line 79. *)
Lemma step_reload_shape pc s :
  readers (step_reload L pc s).2 = readers s
  ∧ reloaders (step_reload L pc s).2 = reloaders s
  ∧ ((published (step_reload L pc s).2 = published s
      ∧ cachedp (step_reload L pc s).2 = cachedp s
      ∧ ∀ a, pc ≠ R_Store a)
     ∨ (∃ a, pc = R_Store a
          ∧ (step_reload L pc s).1 = R_Returned None
          ∧ published (step_reload L pc s).2 = a :: published s)).
Proof.
  assert (Hsame : ∀ pc' s',
            readers s' = readers s → reloaders s' = reloaders s →
            published s' = published s → cachedp s' = cachedp s →
            (∀ a, pc ≠ R_Store a) →
            readers (pc', s').2 = readers s
            ∧ reloaders (pc', s').2 = reloaders s
            ∧ ((published (pc', s').2 = published s
                ∧ cachedp (pc', s').2 = cachedp s
                ∧ ∀ a, pc ≠ R_Store a)
               ∨ (∃ a, pc = R_Store a
                    ∧ (pc', s').1 = R_Returned None
                    ∧ published (pc', s').2 = a :: published s))).
  { intros pc' s' ? ? ? ? ?. split; [done|]. split; [done|]. by left. }
  destruct pc as [| ks | blocks | pemBytes | a | a leaf err | a | err |];
    cbn [step_reload].
  - unfold ioutil_ReadFile.
    destruct (fs (world s) (c_keystorePath s)) as [ks [e|]];
      by apply Hsame.
  - destruct (pkcs12_ToPEM L ks (c_keystorePass s)) as [blocks [e|]];
      by apply Hsame.
  - by apply Hsame.
  - destruct (tls_X509KeyPair L pemBytes pemBytes) as [ck [e|]];
      by apply Hsame.
  - destruct (heap s !! a) as [b|]; [|by apply Hsame].
    destruct (Certificate b !! 0%nat) as [der|]; [|by apply Hsame].
    destruct (x509_ParseCertificate L der) as [leaf err]. by apply Hsame.
  - by apply Hsame.
  - repeat split. right. by exists a.
  - by apply Hsame.
  - by apply Hsame.
Qed.

Lemma step_reload_finished pc s :
  finished pc → step_reload L pc s = (pc, s).
Proof. by destruct pc. Qed.

(** A published cell is never written again, and stays published. *)
Lemma step_published act s a :
  Inv L s → a ∈ published s →
  a ∈ published (step L act s) ∧ heap (step L act s) !! a = heap s !! a.
Proof.
  intros HI Ha. destruct act as [| hello | tid | tid f | files]; cbn;
    try done.
  - destruct (reloaders s !! tid) as [pc|] eqn:Htid; [|done].
    destruct (inv_reloaders _ _ HI _ _ Htid) as [Hok Hnp].
    destruct (inv_published _ _ HI a Ha) as (b & Hb & _).
    destruct pc as [| ks | blocks | pemBytes | a' | a' leaf err | a' | err |];
      cbn; try done.
    + by destruct (fs (world s) (c_keystorePath s)) as [ks [e|]].
    + by destruct (pkcs12_ToPEM L ks (c_keystorePass s)) as [blocks [e|]].
    + destruct (tls_X509KeyPair L pemBytes pemBytes) as [ck [e|]]; cbn;
        (split; [done|]); rewrite Hb; by apply lookup_app_l_Some.
    + destruct (heap s !! a') as [b'|]; [|done].
      destruct (Certificate b' !! 0%nat) as [der|]; [|done].
      by destruct (x509_ParseCertificate L der) as [leaf err].
    + split; [done|]. apply list_lookup_alter_ne. intros ->.
      by apply (Hnp a).
    + split; [|done]. apply elem_of_cons. by right.
  - by destruct (readers s !! tid).
Qed.

Lemma run_published acts s a :
  Inv L s → a ∈ published s →
  a ∈ published (run L acts s) ∧ heap (run L acts s) !! a = heap s !! a.
Proof.
  revert s. induction acts as [|act acts IH]; intros s HI Ha; [done|].
  change (run L (act :: acts) s) with (run L acts (step L act s)).
  destruct (step_published act s a HI Ha) as [Ha' Hh'].
  destruct (IH (step L act s) (step_Inv act s HI) Ha') as [Ha'' Hh''].
  split; [done | by rewrite Hh''].
Qed.

Lemma one_reload_start s r old :
  (∀ j pc, j ≠ r → reloaders s !! j = Some pc → finished pc) →
  one_reload s r old s.
Proof.
  intros Hothers. split; [done|]. left. split; [done|].
  intros i p seen Hfresh Hi. by destruct (Hfresh p seen).
Qed.

Lemma step_one_reload s0 r old act s :
  Inv L s →
  head (published s0) = Some old →
  no_spawn_reload act →
  one_reload s0 r old s →
  one_reload s0 r old (step L act s).
Proof.
  intros HI Hold Hact [Hothers Hcase].
  destruct act as [| hello | tid | tid f | files]; cbn; try done.
  - (* a new handshake *)
    split; [done|].
    assert (Hnew : ∀ i p seen,
              (readers s ++ [G_Call hello]) !! i = Some (G_Got p seen) →
              readers s !! i = Some (G_Got p seen)).
    { intros i p seen [Hi | (_ & Hi)]%lookup_app_Some; [done|].
      by apply list_lookup_singleton_Some in Hi as [_ [=]]. }
    destruct Hcase as [[Hp Hg] | (new & Hp & Hne & Hr & Hg)]; [left|right].
    + split; [done|]. intros i p seen Hf Hi%Hnew. by eapply Hg.
    + exists new. repeat split; try done.
      intros i p seen Hf Hi%Hnew. by eapply Hg.
  - (* a statement of a reload *)
    destruct (reloaders s !! tid) as [pc|] eqn:Htid; [|done].
    destruct (step_reload_shape pc s) as (Eg & Er & Hshape).
    assert (Hfin : finished pc → step_reload L pc s = (pc, s))
      by apply step_reload_finished.
    destruct (step_reload L pc s) as [pc' s1] eqn:Hstep.
    unfold one_reload. cbn in *. rewrite Er, Eg.
    assert (Hothers' : ∀ j pcj, j ≠ r →
              <[tid:=pc']> (reloaders s) !! j = Some pcj → finished pcj).
    { intros j pcj Hj Hlk. destruct (decide (j = tid)) as [->|Hne].
      - apply list_lookup_insert_Some in Hlk as [(_ & <- & _) | (? & _)];
          [|done].
        pose proof (Hothers _ _ Hj Htid) as Hf.
        specialize (Hfin Hf). by injection Hfin as <- _.
      - rewrite list_lookup_insert_ne in Hlk by done. by eapply Hothers. }
    split; [done|].
    destruct Hcase as [[Hp Hg] | (new & Hp & Hne & Hr & Hg)].
    + destruct Hshape as [(Ep & _) | (a & -> & -> & Ep)].
      * left. by rewrite Ep.
      * right. exists a.
        assert (tid = r) as ->.
        { destruct (decide (tid = r)) as [|Hne]; [done|].
          by destruct (Hothers _ _ Hne Htid). }
        rewrite Ep, Hp. repeat split.
        -- intros ->.
           destruct (inv_reloaders _ _ HI _ _ Htid) as [_ Hnp].
           apply (Hnp old eq_refl). rewrite Hp.
           destruct (published s0); [done|]. injection Hold as ->.
           apply elem_of_cons. by left.
        -- apply list_lookup_insert_eq. by eapply lookup_lt_Some.
        -- intros i p seen Hf Hi. left. by eapply Hg.
    + assert (Hf : finished pc).
      { destruct (decide (tid = r)) as [->|Hne']; [|by eapply Hothers].
        rewrite Hr in Htid. by injection Htid as <-. }
      specialize (Hfin Hf). injection Hfin as -> ->.
      right. exists new. rewrite list_insert_id by done. done.
  - (* a step of a handshake *)
    destruct (readers s !! tid) as [gpc|] eqn:Htid; [|done]. cbn.
    split; [done|].
    assert (Hstep : ∀ i p seen,
              <[tid:=step_reader f gpc s]> (readers s) !! i
                = Some (G_Got p seen) →
              (∃ seen0, readers s !! i = Some (G_Got p seen0))
              ∨ (p = head (published s)
                 ∧ ∃ hello, readers s !! i = Some (G_Call hello))).
    { intros i p seen Hi. destruct (decide (i = tid)) as [->|Hne].
      - apply list_lookup_insert_Some in Hi as [(_ & Hi & _) | (? & _)];
          [|done].
        destruct gpc as [hello | [a|] seen0]; cbn in Hi.
        + injection Hi as <- _. right. split; [apply HI | by exists hello].
        + destruct (heap s !! a); injection Hi as <- _; left; eauto.
        + injection Hi as <- _. left; eauto.
      - rewrite list_lookup_insert_ne in Hi by done. left; eauto. }
    destruct Hcase as [[Hp Hg] | (new & Hp & Hne & Hr & Hg)]; [left|right].
    + split; [done|]. intros i p seen Hf Hi.
      destruct (Hstep _ _ _ Hi) as [[seen0 Hi0] | (-> & _)].
      * by eapply Hg.
      * by rewrite Hp.
    + exists new. repeat split; try done. intros i p seen Hf Hi.
      destruct (Hstep _ _ _ Hi) as [[seen0 Hi0] | (-> & _)].
      * by eapply Hg.
      * right. by rewrite Hp.
Qed.

Lemma run_one_reload s0 r old acts s :
  Inv L s →
  head (published s0) = Some old →
  Forall no_spawn_reload acts →
  one_reload s0 r old s →
  one_reload s0 r old (run L acts s).
Proof.
  intros HI Hold Hacts. revert s HI.
  induction Hacts as [|act acts Hact _ IH]; intros s HI Hone; [done|].
  change (run L (act :: acts) s) with (run L acts (step L act s)).
  apply IH; [by apply step_Inv | by apply step_one_reload].
Qed.

(** Whatever the number of reloads: the fields a handshake has read are the
    fields of one published bundle, which has its leaf and is not written
    any more. *)
Lemma Inv_reader_bundle s i a seen :
  Inv L s →
  readers s !! i = Some (G_Got (Some a) seen) →
  ∃ b, a ∈ published s ∧ heap s !! a = Some b ∧ formed L b ∧ agrees seen b
       ∧ ∀ more, heap (run L more s) !! a = Some b.
Proof.
  intros HI Hi.
  destruct (inv_readers _ _ HI _ _ _ Hi) as (Ha & b & Hb & Hag).
  exists b. split; [done|]. split; [done|]. split; [|split; [done|]].
  - destruct (inv_published _ _ HI a Ha) as (b' & Hb' & Hf). congruence.
  - intros more. destruct (run_published more s a HI Ha) as [_ ->]. done.
Qed.

(** X11: in every execution, with any number of reloads racing, the fields
    a handshake has read through the pointer it was given are the fields of
    one published bundle, complete with its leaf, that nothing writes any
    more. *)
Lemma handshake_reads_one_bundle path pass w0 acts i a seen :
  let s := run L acts (init path pass w0) in
  readers s !! i = Some (G_Got (Some a) seen) →
  ∃ b, a ∈ published s ∧ heap s !! a = Some b ∧ formed L b ∧ agrees seen b
       ∧ ∀ more, heap (run L more s) !! a = Some b.
Proof. intros s. apply Inv_reader_bundle, run_Inv, Inv_init. Qed.

(** C2: in an execution that has reached a state [s] where [old] is the
    published bundle, let the handshakes, the files and one reload [r] run
    on in any interleaving (every other reload has returned, none is
    started).  A handshake that calls [getCertificate] after [s] is given
    a pointer to one cell [a], and every field it reads through it, at any
    later time, is the field of one bundle [b], complete with its leaf and
    never written after its publication: the bundle [old] as it was in
    [s], or the bundle that [r] has published since with its single
    atomic store. *)
Theorem getCertificate_one_generation
    path pass w0 pre acts r old i p seen :
  let s := run L pre (init path pass w0) in
  let s' := run L acts s in
  cachedp s = Some old →
  (∀ j pcj, j ≠ r → reloaders s !! j = Some pcj → finished pcj) →
  Forall no_spawn_reload acts →
  fresh_reader s i →
  readers s' !! i = Some (G_Got p seen) →
  ∃ a b,
    p = Some a
    ∧ heap s' !! a = Some b
    ∧ formed L b
    ∧ agrees seen b
    ∧ (∀ more, heap (run L more s') !! a = Some b)
    ∧ ((a = old ∧ heap s !! old = Some b)
       ∨ (a ≠ old ∧ cachedp s' = Some a
          ∧ reloaders s' !! r = Some (R_Returned None))).
Proof.
  intros s s' Hold Hothers Hacts Hfresh Hi.
  assert (HI : Inv L s) by apply run_Inv, Inv_init.
  assert (HI' : Inv L s') by by apply run_Inv.
  assert (Hhead : head (published s) = Some old).
  { by rewrite <- (inv_cached _ _ HI). }
  assert (Hone : one_reload s r old s').
  { apply run_one_reload; try done. by apply one_reload_start. }
  assert (Hgen : ∀ a, p = Some a →
            ∃ b, heap s' !! a = Some b ∧ formed L b ∧ agrees seen b
                 ∧ ∀ more, heap (run L more s') !! a = Some b).
  { intros a ->.
    destruct (Inv_reader_bundle s' i a seen HI' Hi) as (b & _ & Hb).
    by exists b. }
  assert (Hisold : p = Some old →
            ∃ a b, p = Some a ∧ heap s' !! a = Some b ∧ formed L b
              ∧ agrees seen b
              ∧ (∀ more, heap (run L more s') !! a = Some b)
              ∧ ((a = old ∧ heap s !! old = Some b)
                 ∨ (a ≠ old ∧ cachedp s' = Some a
                    ∧ reloaders s' !! r = Some (R_Returned None)))).
  { intros Hp. destruct (Hgen old Hp) as (b & Hb & Hf & Hag & Hmore).
    exists old, b. do 5 (split; [done|]). left. split; [done|].
    assert (Hin : old ∈ published s).
    { destruct (published s); [done|]. injection Hhead as ->.
      apply elem_of_cons. by left. }
    destruct (run_published acts s old HI Hin) as [_ <-]. done. }
  destruct Hone as [_ [[Hp Hg] | (new & Hp & Hne & Hr & Hg)]].
  - apply Hisold. by eapply Hg.
  - destruct (Hg _ _ _ Hfresh Hi) as [Hp' | Hp']; [by apply Hisold|].
    destruct (Hgen new Hp') as (b & Hb & Hf & Hag & Hmore).
    exists new, b. do 5 (split; [done|]). right.
    split; [done|]. split; [|done].
    by rewrite (inv_cached _ _ HI'), Hp.
Qed.

End Executions.

Lemma getCertificate_one_generation_witness :
  ∃ a b,
    Some 0%nat = Some a
    ∧ heap (run Toy.libs Toy.during (run Toy.libs Toy.before
              (init "/etc/keystore.p12" "secret" Toy.w1))) !! a = Some b
    ∧ formed Toy.libs b
    ∧ agrees Toy.seen1 b
    ∧ (∀ more,
         heap (run Toy.libs more
                 (run Toy.libs Toy.during (run Toy.libs Toy.before
                    (init "/etc/keystore.p12" "secret" Toy.w1)))) !! a
           = Some b)
    ∧ ((a = 0%nat
        ∧ heap (run Toy.libs Toy.before
                  (init "/etc/keystore.p12" "secret" Toy.w1)) !! 0%nat
            = Some b)
       ∨ (a ≠ 0%nat
          ∧ cachedp (run Toy.libs Toy.during (run Toy.libs Toy.before
                       (init "/etc/keystore.p12" "secret" Toy.w1))) = Some a
          ∧ reloaders (run Toy.libs Toy.during (run Toy.libs Toy.before
                         (init "/etc/keystore.p12" "secret" Toy.w1)))
              !! 1%nat = Some (R_Returned None))).
Proof.
  apply (getCertificate_one_generation Toy.libs
           "/etc/keystore.p12" "secret" Toy.w1 Toy.before Toy.during
           1%nat 0%nat 0%nat (Some 0%nat) Toy.seen1).
  - reflexivity.
  - intros [|[|j]] pcj Hj Hlk; [| done |]; vm_compute in Hlk.
    + injection Hlk as <-. exact I.
    + discriminate Hlk.
  - repeat constructor.
  - intros p seen Hlk. vm_compute in Hlk. discriminate Hlk.
  - reflexivity.
Defined.

(** * The threads and the sequential program agree *)

Section Agreement.
Context {PrivateKey X509 : Type}.
Context (L : GoLibs PrivateKey X509).

Implicit Types (s : @State PrivateKey X509) (pc : @reloadPC X509).

Ltac run_statement :=
  cbn [step_reload fst snd set_world set_heap atomic_StorePointer
       heap world cachedp c_keystorePath c_keystorePass outcome
       ioutil_ReadFile].

(** Seven statements take a [reload] that nobody interrupts from line 54
    to its return, and it has then done what [reload] does. *)
Lemma solo_reload s :
  (∀ a, cachedp s = Some a → is_Some (heap s !! a)) →
  outcome (solo L 7 R_ReadFile s).1 = Some (reload L (store_of s) (world s)).1.1
  ∧ world (solo L 7 R_ReadFile s).2 = (reload L (store_of s) (world s)).2
  ∧ store_of (solo L 7 R_ReadFile s).2
    = (reload L (store_of s) (world s)).1.2.
Proof.
  intros Hslot.
  assert (Hkeep : ∀ ck, cachedp s ≫= (λ a, (heap s ++ [ck]) !! a)
                        = cachedp s ≫= (λ a, heap s !! a)).
  { intros ck. destruct (cachedp s) as [a|] eqn:Hc; [|done]. cbn.
    destruct (Hslot a eq_refl) as [b Hb]. rewrite Hb.
    by apply lookup_app_l_Some. }
  assert (Hkeep' : ∀ ck leaf,
            cachedp s ≫= (λ a, alter (set_Leaf leaf) (length (heap s))
                                 (heap s ++ [ck]) !! a)
            = cachedp s ≫= (λ a, heap s !! a)).
  { intros ck leaf. rewrite <- (Hkeep ck).
    destruct (cachedp s) as [a|] eqn:Hc; [|done]. cbn.
    apply list_lookup_alter_ne. intros <-.
    destruct (Hslot _ eq_refl) as [b Hb%lookup_lt_Some]. lia. }
  unfold reload, ioutil_ReadFile, store_of. cbn [solo].
  cbn [keystorePath keystorePass].
  unfold ioutil_ReadFile. run_statement.
  destruct (fs (world s) (c_keystorePath s)) as [ks [e1|]];
    run_statement; [done|].
  destruct (pkcs12_ToPEM L ks (c_keystorePass s)) as [blocks [e2|]];
    run_statement; [done|].
  destruct (tls_X509KeyPair L (encodeBlocks L blocks)
              (encodeBlocks L blocks)) as [ck [e3|]]; run_statement.
  { by rewrite Hkeep. }
  rewrite list_lookup_middle by done.
  destruct (Certificate ck !! 0%nat) as [der|]; run_statement.
  2:{ by rewrite Hkeep. }
  destruct (x509_ParseCertificate L der) as [leaf [e4|]]; run_statement.
  { by rewrite Hkeep'. }
  cbn [mbind option_bind].
  rewrite list_lookup_alter_eq, list_lookup_middle by done. done.
Qed.


(** The statements of a [reload] do not look at the threads. *)
Lemma step_reload_set_reloaders pc l s :
  step_reload L pc (set_reloaders l s)
  = ((step_reload L pc s).1, set_reloaders l (step_reload L pc s).2).
Proof.
  destruct pc as [| ks | blocks | pemBytes | a | a leaf err | a | err |];
    cbn; try reflexivity.
  - by destruct (fs (world s) (c_keystorePath s)) as [ks [e|]].
  - by destruct (pkcs12_ToPEM L ks (c_keystorePass s)) as [blocks [e|]].
  - by destruct (tls_X509KeyPair L pemBytes pemBytes) as [ck [e|]].
  - destruct (heap s !! a) as [b|]; [|done].
    destruct (Certificate b !! 0%nat) as [der|]; [|done].
    by destruct (x509_ParseCertificate L der) as [leaf err].
Qed.

Lemma solo_set_reloaders n pc l s :
  solo L n pc (set_reloaders l s)
  = ((solo L n pc s).1, set_reloaders l (solo L n pc s).2).
Proof.
  revert pc s. induction n as [|n IH]; intros pc s; [done|].
  cbn [solo]. rewrite step_reload_set_reloaders.
  destruct (step_reload L pc s) as [pc' s1]. cbn [fst snd]. apply IH.
Qed.

Lemma solo_reloaders n pc s : reloaders (solo L n pc s).2 = reloaders s.
Proof.
  revert pc s. induction n as [|n IH]; intros pc s; [done|].
  cbn [solo]. pose proof (step_reload_shape L pc s) as (_ & Er & _).
  destruct (step_reload L pc s) as [pc' s1]. rewrite IH. done.
Qed.

(** Scheduling thread [tid] alone [n] times runs [n] statements of it. *)
Lemma run_solo tid n pc s :
  reloaders s !! tid = Some pc →
  run L (replicate n (Step_reload tid)) s
  = set_reloaders (<[tid := (solo L n pc s).1]> (reloaders s))
                  (solo L n pc s).2.
Proof.
  revert pc s. induction n as [|n IH]; intros pc s Htid.
  - cbn. rewrite list_insert_id by done. by destruct s.
  - change (run L (replicate (S n) (Step_reload tid)) s)
      with (run L (replicate n (Step_reload tid))
              (step L (Step_reload tid) s)).
    cbn [step solo]. rewrite Htid.
    pose proof (step_reload_shape L pc s) as (_ & Er & _).
    destruct (step_reload L pc s) as [pc' s1]. cbn [snd] in Er.
    rewrite (IH pc').
    2:{ cbn. rewrite Er. apply list_lookup_insert_eq.
        by eapply lookup_lt_Some. }
    rewrite solo_set_reloaders. cbn. rewrite Er, list_insert_insert_eq.
    done.
Qed.

(** A [reload] scheduled seven times from line 54 has returned what the
    sequential [reload] returns, with the same files read and the same
    bundle in the slot. *)
Lemma reload_thread_agrees tid s :
  Inv L s →
  reloaders s !! tid = Some R_ReadFile →
  let s' := run L (replicate 7 (Step_reload tid)) s in
  (∃ pc, reloaders s' !! tid = Some pc
         ∧ outcome pc = Some (reload L (store_of s) (world s)).1.1)
  ∧ world s' = (reload L (store_of s) (world s)).2
  ∧ store_of s' = (reload L (store_of s) (world s)).1.2.
Proof.
  intros HI Htid s'. unfold s'. rewrite (run_solo tid 7 R_ReadFile s Htid).
  destruct (solo_reload s) as (Hout & Hw & Hst).
  { intros a Ha. destruct (inv_published _ _ HI a) as (b & Hb & _); [|eauto].
    rewrite (inv_cached _ _ HI) in Ha.
    destruct (published s); [done|]. injection Ha as ->.
    apply elem_of_cons. by left. }
  split; [|split; [done|done]].
  exists (solo L 7 R_ReadFile s).1. split; [|done]. cbn.
  apply list_lookup_insert_eq. by eapply lookup_lt_Some.
Qed.

End Agreement.

(** * More on the sequential program *)

Section Reloads.
Context {PrivateKey X509 : Type}.
Context (L : GoLibs PrivateKey X509).

Implicit Types (c : certificate PrivateKey X509) (w : World).
Implicit Types (b : tls_Certificate PrivateKey X509) (e : error).

Lemma encodeBlocks_from (acc : bytes) blocks :
  fold_left (λ pemBytes block, pemBytes ++ pem_EncodeToMemory L block)
            blocks acc
  = acc ++ concat (map (pem_EncodeToMemory L) blocks).
Proof.
  revert acc. induction blocks as [|block blocks IH]; intros acc; cbn.
  - by rewrite app_nil_r.
  - by rewrite IH, app_assoc.
Qed.

(** X1: the loop of lines 64-67 yields the encodings of the blocks one
    after the other, in the order of the blocks: nothing is dropped, nothing
    is put between them, and the bytes of a list of blocks are the bytes of
    its first part followed by the bytes of the rest. *)
Theorem encodeBlocks_concat blocks1 blocks2 :
  encodeBlocks L blocks1 = concat (map (pem_EncodeToMemory L) blocks1)
  ∧ encodeBlocks L (blocks1 ++ blocks2)
    = encodeBlocks L blocks1 ++ encodeBlocks L blocks2
  ∧ length (encodeBlocks L blocks1)
    = sum_list (map (λ block, length (pem_EncodeToMemory L block)) blocks1).
Proof.
  assert (H : ∀ blocks, encodeBlocks L blocks
                        = concat (map (pem_EncodeToMemory L) blocks)).
  { intros blocks. unfold encodeBlocks. by rewrite encodeBlocks_from. }
  split; [apply H|]. split.
  - by rewrite !H, map_app, concat_app.
  - rewrite H. induction blocks1 as [|block blocks IH]; [done|].
    cbn. by rewrite length_app, IH.
Qed.

(** X2: whatever it returns, a call of [reload] has read one file, the
    keystore of the store, has left the files as they were, and has left
    the path and the passphrase of the store as they were. *)
Theorem reload_reads_keystore_only c w :
  reads (reload L c w).2 = reads w ++ [keystorePath c]
  ∧ fs (reload L c w).2 = fs w
  ∧ keystorePath (reload L c w).1.2 = keystorePath c
  ∧ keystorePass (reload L c w).1.2 = keystorePass c.
Proof.
  split; [by rewrite reload_world|]. split; [by rewrite reload_world|].
  destruct (reload_cases L c w)
    as [(st & e & _ & Hr) | [(b & _ & Hr) | Hr]]; by rewrite Hr.
Qed.

Lemma reload_ext c c' w w' :
  keystorePath c = keystorePath c' →
  keystorePass c = keystorePass c' →
  fs w = fs w' →
  (reload L c w).1.1 = (reload L c' w').1.1
  ∧ ((reload L c w).1.1 = Ret None →
     cached (reload L c w).1.2 = cached (reload L c' w').1.2)
  ∧ ((reload L c w).1.1 ≠ Ret None → (reload L c' w').1.2 = c').
Proof.
  intros Hpath Hpass Hfs. unfold reload, ioutil_ReadFile.
  rewrite <- Hpath, <- Hpass, <- Hfs.
  destruct (fs w (keystorePath c)) as [ks [e1|]]; cbn; [done|].
  destruct (pkcs12_ToPEM L ks (keystorePass c)) as [blocks [e2|]]; cbn;
    [done|].
  destruct (tls_X509KeyPair L (encodeBlocks L blocks) (encodeBlocks L blocks))
    as [ck [e3|]]; cbn; [done|].
  destruct (Certificate ck !! 0%nat) as [der|]; cbn; [|done].
  destruct (x509_ParseCertificate L der) as [leaf [e4|]]; cbn; done.
Qed.

Lemma reload_config c w :
  keystorePath (reload L c w).1.2 = keystorePath c
  ∧ keystorePass (reload L c w).1.2 = keystorePass c.
Proof.
  destruct (reload_cases L c w)
    as [(st & e & _ & Hr) | [(b & _ & Hr) | Hr]]; by rewrite Hr.
Qed.

(** X3: what [reload] returns and what it publishes depend on the path, the
    passphrase and the content of the files only: not on the bundle in the
    slot, not on what was read before. *)
Theorem reload_depends_on_keystore_only c c' w w' hello :
  keystorePath c = keystorePath c' →
  keystorePass c = keystorePass c' →
  fs w = fs w' →
  (reload L c w).1.1 = (reload L c' w').1.1
  ∧ ((reload L c w).1.1 = Ret None →
     getCertificate (reload L c w).1.2 hello
     = getCertificate (reload L c' w').1.2 hello)
  ∧ ((reload L c w).1.1 ≠ Ret None →
     (reload L c w).1.2 = c ∧ (reload L c' w').1.2 = c').
Proof.
  intros Hpath Hpass Hfs.
  destruct (reload_ext c c' w w' Hpath Hpass Hfs) as (Hr & Hok & Hko).
  split; [done|]. split.
  - intros H. unfold getCertificate. by rewrite (Hok H).
  - intros H. split; [by apply reload_unchanged | by apply Hko].
Qed.


Lemma decodes_ext c c' w b :
  keystorePath c = keystorePath c' →
  keystorePass c = keystorePass c' →
  decodes L c w b → decodes L c' w b.
Proof.
  intros Hpath Hpass [ks blocks ck der leaf Hr Hp Hk Hd Hl].
  rewrite Hpath in Hr. rewrite Hpass in Hp. by econstructor.
Qed.

Lemma reload_seq_cons w ws c :
  reload_seq L (w :: ws) c = reload_seq L ws (reload L c w).1.2.
Proof. reflexivity. Qed.

Lemma reload_seq_app ws ws' c :
  reload_seq L (ws ++ ws') c = reload_seq L ws' (reload_seq L ws c).
Proof. apply fold_left_app. Qed.

Lemma reload_seq_config ws c :
  keystorePath (reload_seq L ws c) = keystorePath c
  ∧ keystorePass (reload_seq L ws c) = keystorePass c.
Proof.
  revert c. induction ws as [|w ws IH]; intros c; [done|].
  rewrite reload_seq_cons.
  destruct (IH (reload L c w).1.2) as [-> ->]. apply reload_config.
Qed.

Lemma reload_seq_undecodable c c' ws :
  keystorePath c = keystorePath c' →
  keystorePass c = keystorePass c' →
  Forall (undecodable L c) ws →
  reload_seq L ws c' = c'.
Proof.
  intros Hpath Hpass Hws. induction Hws as [|w ws Hw _ IH]; [done|].
  rewrite reload_seq_cons. assert ((reload L c' w).1.2 = c') as ->; [|done].
  destruct (reload_cases L c' w)
    as [(st & e & _ & Hr) | [(b & Hd & Hr) | Hr]]; rewrite Hr; try done.
  destruct (Hw b). by eapply decodes_ext.
Qed.

(** X5: after any sequence of reloads, the slot holds the bundle of the
    last reload that found a keystore it could decode; the reloads after
    it, which failed, have not touched it. *)
Theorem reload_seq_last_success c ws w ws' b hello :
  decodes L c w b →
  Forall (undecodable L c) ws' →
  getCertificate (reload_seq L (ws ++ w :: ws') c) hello = (Some b, None).
Proof.
  intros Hd Hws'. rewrite reload_seq_app, reload_seq_cons.
  destruct (reload_seq_config ws c) as [Hpath Hpass].
  assert (Hd' : decodes L (reload_seq L ws c) w b) by by eapply decodes_ext.
  rewrite (reload_decodes L _ _ _ Hd'). cbn [snd].
  by rewrite (reload_seq_undecodable c).
Qed.

(** X6: a store that [buildCertificate] has returned keeps a bundle in its
    slot through any sequence of reloads, whatever becomes of the files:
    [getCertificate] never returns the nil certificate on it. *)
Theorem loaded_stays_loaded path pass w0 c ws hello :
  (buildCertificate L path pass w0).1 = Ret (Some c, None) →
  ∃ b, getCertificate (reload_seq L ws c) hello = (Some b, None).
Proof.
  intros Hc. apply (buildCertificate_loaded L _ _ _ _ hello) in Hc as [b0 Hc].
  assert (Hs : is_Some (cached c)) by (injection Hc as ->; eauto).
  clear Hc. revert c Hs. induction ws as [|w ws IH]; intros c [b Hb].
  - exists b. unfold getCertificate. cbn. by rewrite Hb.
  - rewrite reload_seq_cons. apply IH.
    destruct (reload_cases L c w)
      as [(st & e & _ & Hr) | [(b' & _ & Hr) | Hr]]; rewrite Hr; cbn; eauto.
Qed.

Lemma reload_panic_cause c w :
  (reload L c w).1.1 = Panic →
  ∃ keystoreBytes pemBlocks certAndKey,
    fs w (keystorePath c) = (keystoreBytes, None)
    ∧ pkcs12_ToPEM L keystoreBytes (keystorePass c) = (pemBlocks, None)
    ∧ tls_X509KeyPair L (encodeBlocks L pemBlocks)
                        (encodeBlocks L pemBlocks) = (certAndKey, None)
    ∧ Certificate certAndKey = [].
Proof.
  unfold reload, ioutil_ReadFile.
  destruct (fs w (keystorePath c)) as [ks [e1|]] eqn:Hr; cbn; [done|].
  destruct (pkcs12_ToPEM L ks (keystorePass c)) as [blocks [e2|]] eqn:Hp;
    cbn; [done|].
  destruct (tls_X509KeyPair L (encodeBlocks L blocks)
              (encodeBlocks L blocks)) as [ck [e3|]] eqn:Hk; cbn;
    [done|].
  destruct (Certificate ck) as [|der chain] eqn:Hchain; cbn.
  - intros _. by exists ks, blocks, ck.
  - by destruct (x509_ParseCertificate L der) as [leaf [e4|]].
Qed.

(** X7: [reload] panics in one case only, on line 74: the file was read,
    the container was decoded, and tls.X509KeyPair returned no error and a
    chain without any certificate.  The store is then as it was. *)
Theorem reload_panics_iff c w :
  ((reload L c w).1.1 = Panic
   ↔ ∃ keystoreBytes pemBlocks certAndKey,
       fs w (keystorePath c) = (keystoreBytes, None)
       ∧ pkcs12_ToPEM L keystoreBytes (keystorePass c) = (pemBlocks, None)
       ∧ tls_X509KeyPair L (encodeBlocks L pemBlocks)
                           (encodeBlocks L pemBlocks) = (certAndKey, None)
       ∧ Certificate certAndKey = [])
  ∧ ((reload L c w).1.1 = Panic → (reload L c w).1.2 = c).
Proof.
  split.
  - split; [apply reload_panic_cause|].
    intros (ks & blocks & ck & Hr & Hp & Hk & Hchain).
    unfold reload, ioutil_ReadFile. by rewrite Hr, Hp, Hk, Hchain.
  - intros H. apply reload_unchanged. by rewrite H.
Qed.

(** X8: with a tls.X509KeyPair that returns a certificate whenever it
    returns no error, neither [reload] nor [buildCertificate] panics. *)
Theorem reload_never_panics matches c w path pass :
  X509KeyPair_contract L matches →
  (∃ err, (reload L c w).1.1 = Ret err)
  ∧ (∃ r, (buildCertificate L path pass w).1 = Ret r).
Proof.
  intros Hlib.
  assert (H : ∀ c', ∃ err, (reload L c' w).1.1 = Ret err).
  { intros c'. destruct (reload L c' w).1.1 as [err|] eqn:Hr; [eauto|].
    apply reload_panic_cause in Hr as (ks & blocks & ck & _ & _ & Hk & Hnil).
    destruct (Hlib _ _ _ Hk) as (der & Hder & _).
    by rewrite Hnil in Hder. }
  split; [apply H|]. rewrite buildCertificate_reload.
  destruct (H {| keystorePath := path; keystorePass := pass;
                 cached := None |}) as [err Herr].
  destruct (reload L _ w).1 as [r c']. cbn in Herr. subst r.
  destruct err; eauto.
Qed.

End Reloads.

Lemma reload_depends_on_keystore_only_witness :
  (reload Toy.libs Toy.unloaded Toy.w1).1.1
    = (reload Toy.libs Toy.store1 Toy.w1_later).1.1
  ∧ getCertificate (reload Toy.libs Toy.unloaded Toy.w1).1.2 None
    = getCertificate (reload Toy.libs Toy.store1 Toy.w1_later).1.2 None.
Proof.
  destruct (reload_depends_on_keystore_only Toy.libs Toy.unloaded Toy.store1
              Toy.w1 Toy.w1_later None) as (H1 & H2 & _);
    [reflexivity | reflexivity | reflexivity |].
  split; [exact H1 | apply H2; reflexivity].
Defined.

Lemma toy_gone_undecodable : undecodable Toy.libs Toy.unloaded Toy.gone.
Proof. intros b Hd. inversion Hd as [? ? ? ? ? Hr]. discriminate Hr. Qed.

Lemma reload_seq_last_success_witness :
  getCertificate
    (reload_seq Toy.libs ([Toy.w2] ++ Toy.w1 :: [Toy.gone; Toy.gone])
       Toy.unloaded) None
  = (Some (Toy.bundle Toy.server1), None).
Proof.
  apply (reload_seq_last_success Toy.libs Toy.unloaded [Toy.w2] Toy.w1
           [Toy.gone; Toy.gone] (Toy.bundle Toy.server1) None).
  - exact toy_decodes.
  - repeat constructor; exact toy_gone_undecodable.
Defined.

Lemma loaded_stays_loaded_witness :
  ∃ b, getCertificate
         (reload_seq Toy.libs [Toy.gone; Toy.w2; Toy.gone] Toy.store1) None
       = (Some b, None).
Proof.
  apply (loaded_stays_loaded Toy.libs "/etc/keystore.p12" "secret" Toy.w1
           Toy.store1 [Toy.gone; Toy.w2; Toy.gone] None).
  reflexivity.
Defined.

Lemma reload_never_panics_witness :
  (∃ err, (reload Toy.libs Toy.store1 Toy.gone).1.1 = Ret err)
  ∧ (∃ r, (buildCertificate Toy.libs "/etc/badleaf.p12" "secret"
             Toy.gone).1 = Ret r).
Proof.
  apply (reload_never_panics Toy.libs Toy.matches Toy.store1 Toy.gone
           "/etc/badleaf.p12" "secret").
  exact toy_X509KeyPair_contract.
Defined.

(** * More on the trust bundle and the policy *)

Section Assembly.
Context {PrivateKey X509 : Type}.
Context (L : GoLibs PrivateKey X509).

Implicit Types (w : World) (cfg : tls_Config X509).

(** X9: [buildConfig] fails exactly as [certBundle] fails: it returns the
    error of [certBundle], unchanged, and then no configuration; when
    [certBundle] returns no error it returns a configuration and no error.
    It never returns both or neither. *)
Theorem buildConfig_propagates caBundlePath w :
  (buildConfig L caBundlePath w).1.2 = (certBundle L caBundlePath w).1.2
  ∧ (∀ e, (certBundle L caBundlePath w).1.2 = Some e →
          (buildConfig L caBundlePath w).1 = (None, Some e))
  ∧ ((certBundle L caBundlePath w).1.2 = None →
     ∃ cfg, (buildConfig L caBundlePath w).1 = (Some cfg, None))
  ∧ (is_Some (buildConfig L caBundlePath w).1.1
     ↔ (buildConfig L caBundlePath w).1.2 = None).
Proof.
  rewrite buildConfig_certBundle.
  destruct (certBundle L caBundlePath w) as [[caBundle [e|]] w']; cbn.
  - split; [done|]. split; [by intros ? [= <-]|]. split; [done|].
    split; [by intros [? ?] | done].
  - split; [done|]. split; [done|]. split; [eauto|]. split; eauto.
Qed.

Lemma certBundle_world caBundlePath w :
  caBundlePath ≠ "" →
  fs (certBundle L caBundlePath w).2 = fs w
  ∧ reads (certBundle L caBundlePath w).2 = reads w ++ [caBundlePath].
Proof.
  intros Hne. unfold certBundle, ioutil_ReadFile.
  destruct (decide (caBundlePath = "")) as [|_]; [done|].
  destruct (fs w caBundlePath) as [caBundleBytes [e|]]; cbn; [done|].
  destruct (AppendCertsFromPEM L (x509_NewCertPool L) caBundleBytes)
    as [bundle [|]]; done.
Qed.

(** X10: [buildConfig] does to the files what [certBundle] does and nothing
    more.  For a path that is not empty, whatever they return, they leave
    the files as they were and have read one file, the CA bundle, once.
    For the empty path the world after either is the one that
    x509.SystemCertPool leaves: what is read there is what that call
    reads. *)
Theorem buildConfig_reads caBundlePath w :
  (buildConfig L caBundlePath w).2 = (certBundle L caBundlePath w).2
  ∧ (caBundlePath ≠ "" →
     fs (buildConfig L caBundlePath w).2 = fs w
     ∧ reads (buildConfig L caBundlePath w).2 = reads w ++ [caBundlePath])
  ∧ (buildConfig L "" w).2 = (x509_SystemCertPool L w).2
  ∧ (certBundle L "" w).2 = (x509_SystemCertPool L w).2.
Proof.
  assert (H : ∀ path, (buildConfig L path w).2 = (certBundle L path w).2).
  { intros path. rewrite buildConfig_certBundle.
    by destruct (certBundle L path w) as [[caBundle [e|]] w']. }
  split; [apply H|]. split; [|split; [|done]].
  - intros Hne. rewrite H. by apply certBundle_world.
  - by rewrite H.
Qed.

End Assembly.

(** * More on the concurrent executions *)

Section History.
Context {PrivateKey X509 : Type}.
Context (L : GoLibs PrivateKey X509).

Implicit Types (s : @State PrivateKey X509) (pc : @reloadPC X509).

Lemma run_cons act acts s :
  run L (act :: acts) s = run L acts (step L act s).
Proof. reflexivity. Qed.

Lemma run_app acts acts' s :
  run L (acts ++ acts') s = run L acts' (run L acts s).
Proof. apply fold_left_app. Qed.

(** A step stores at most one pointer into the slot. *)
Lemma step_published_ext act s :
  published (step L act s) = published s
  ∨ ∃ tid a, act = Step_reload tid
             ∧ reloaders s !! tid = Some (R_Store a)
             ∧ published (step L act s) = a :: published s.
Proof.
  destruct act as [| hello | tid | tid f | files]; cbn; try by left.
  - destruct (reloaders s !! tid) as [pc|] eqn:Htid; [|by left].
    destruct (step_reload_shape L pc s)
      as (_ & _ & [(Ep & _) | (a & -> & _ & Ep)]);
      destruct (step_reload L _ s) as [pc' s1]; cbn in *.
    + by left.
    + right. by exists tid, a.
  - destruct (readers s !! tid); by left.
Qed.

Lemma step_NoDup act s :
  Inv L s → NoDup (published s) → NoDup (published (step L act s)).
Proof.
  intros HI Hnd.
  destruct (step_published_ext act s) as [-> | (tid & a & _ & Htid & ->)];
    [done|].
  apply NoDup_cons_2; [|done].
  by apply (proj2 (inv_reloaders _ _ HI _ _ Htid)).
Qed.

Lemma run_NoDup acts s :
  Inv L s → NoDup (published s) → NoDup (published (run L acts s)).
Proof.
  revert s. induction acts as [|act acts IH]; intros s HI Hnd; [done|].
  rewrite run_cons. apply IH; [by apply step_Inv | by apply step_NoDup].
Qed.

Lemma run_published_ext acts s :
  ∃ ext, published (run L acts s) = ext ++ published s.
Proof.
  revert s. induction acts as [|act acts IH]; intros s; [by exists []|].
  rewrite run_cons. destruct (IH (step L act s)) as [ext ->].
  destruct (step_published_ext act s) as [-> | (tid & a & _ & _ & ->)].
  - by exists ext.
  - exists (ext ++ [a]). by rewrite <- app_assoc.
Qed.

(** X13: in every execution the slot holds the pointer of the latest store;
    no cell is published twice, each successful [reload] publishes a cell
    of its own; and what has been published stays in the history, in its
    order, whatever runs afterwards. *)
Theorem published_history path pass w0 acts more :
  let s := run L acts (init path pass w0) in
  cachedp s = head (published s)
  ∧ NoDup (published s)
  ∧ ∃ ext, published (run L more s) = ext ++ published s.
Proof.
  intros s.
  assert (HI : Inv L s) by apply run_Inv, Inv_init.
  split; [apply HI|]. split; [|apply run_published_ext].
  apply run_NoDup; [apply Inv_init | apply NoDup_nil_2].
Qed.

(** What a step of a handshake can make of it. *)
Lemma step_reader_got tid f gpc s i p seen :
  Inv L s →
  readers s !! tid = Some gpc →
  <[tid := step_reader f gpc s]> (readers s) !! i = Some (G_Got p seen) →
  (∃ seen0, readers s !! i = Some (G_Got p seen0))
  ∨ (p = head (published s) ∧ ∃ hello, readers s !! i = Some (G_Call hello)).
Proof.
  intros HI Htid Hi. destruct (decide (i = tid)) as [->|Hne].
  - apply list_lookup_insert_Some in Hi as [(_ & Hi & _) | (? & _)];
      [|done].
    destruct gpc as [hello | [a|] seen0]; cbn in Hi.
    + injection Hi as <- _. right. split; [apply HI | by exists hello].
    + destruct (heap s !! a); injection Hi as <- _; left; eauto.
    + injection Hi as <- _. left; eauto.
  - rewrite list_lookup_insert_ne in Hi by done. left; eauto.
Qed.

Lemma step_latest_since s0 act s :
  Inv L s0 → Inv L s →
  latest_since s0 s → latest_since s0 (step L act s).
Proof.
  intros HI0 HI (ext & Hp & Hg).
  assert (Hmono : ∀ ext' i p seen,
            fresh_reader s0 i → readers s !! i = Some (G_Got p seen) →
            p = cachedp s0 ∨ ∃ a, p = Some a ∧ a ∈ ext' ++ ext).
  { intros ext' i p seen Hf Hi.
    destruct (Hg i p seen Hf Hi) as [-> | (a & -> & Ha)]; [by left|].
    right. exists a. split; [done|]. apply elem_of_app. by right. }
  destruct act as [| hello | tid | tid f | files]; cbn.
  - exists ext. split; [done|]. apply (Hmono []).
  - exists ext. split; [done|]. intros i p seen Hf Hi. cbn in Hi.
    apply lookup_app_Some in Hi as [Hi | (_ & Hi)]; [by eapply (Hmono [])|].
    by apply list_lookup_singleton_Some in Hi as [_ [=]].
  - destruct (reloaders s !! tid) as [pc|] eqn:Htid;
      [|exists ext; split; [done | apply (Hmono [])]].
    destruct (step_reload_shape L pc s)
      as (Eg & _ & [(Ep & _) | (a & -> & _ & Ep)]);
      destruct (step_reload L _ s) as [pc' s1]; cbn in *.
    + exists ext. split; [cbn; congruence|]. cbn. rewrite Eg.
      apply (Hmono []).
    + exists (a :: ext). split; [cbn; by rewrite Ep, Hp|]. cbn. rewrite Eg.
      apply (Hmono [a]).
  - destruct (readers s !! tid) as [gpc|] eqn:Htid;
      [|exists ext; split; [done | apply (Hmono [])]].
    exists ext. split; [done|]. cbn. intros i p seen Hf Hi.
    destruct (step_reader_got _ _ _ _ _ _ _ HI Htid Hi)
      as [[seen0 Hi0] | (-> & _)]; [by eapply (Hmono [])|].
    rewrite Hp. destruct ext as [|a ext]; cbn.
    + left. symmetry. apply HI0.
    + right. exists a. split; [done|]. apply elem_of_cons. by left.
  - exists ext. split; [done|]. apply (Hmono []).
Qed.

Lemma run_latest_since s0 acts s :
  Inv L s0 → Inv L s →
  latest_since s0 s → latest_since s0 (run L acts s).
Proof.
  intros HI0. revert s. induction acts as [|act acts IH]; intros s HI Hl;
    [done|].
  rewrite run_cons. apply IH; [by apply step_Inv | by apply step_latest_since].
Qed.

(** X14: a handshake that calls [getCertificate] after a state [s] of an
    execution, with any number of reloads running, is given the pointer
    that was in the slot in [s] or a pointer stored since: never one of the
    bundles that had been replaced before [s]. *)
Theorem getCertificate_sees_latest path pass w0 pre acts i p seen :
  let s := run L pre (init path pass w0) in
  let s' := run L acts s in
  fresh_reader s i →
  readers s' !! i = Some (G_Got p seen) →
  ∃ ext, published s' = ext ++ published s
         ∧ (p = cachedp s ∨ ∃ a, p = Some a ∧ a ∈ ext)
         ∧ ∀ a, p = Some a → a ∉ tail (published s).
Proof.
  intros s s' Hfresh Hi.
  assert (HI : Inv L s) by apply run_Inv, Inv_init.
  assert (Hl : latest_since s s').
  { apply run_latest_since; try done. exists []. split; [done|].
    intros j q seen' Hf Hj. by destruct (Hf q seen'). }
  destruct Hl as (ext & Hp & Hg). exists ext. split; [done|].
  specialize (Hg i p seen Hfresh Hi). split; [done|].
  assert (Hnd : NoDup (ext ++ published s)).
  { rewrite <- Hp. unfold s', s. rewrite <- run_app.
    apply run_NoDup; [apply Inv_init | apply NoDup_nil_2]. }
  intros a -> Hold. destruct Hg as [Hcur | (a' & [= <-] & Ha)].
  - rewrite (inv_cached _ _ HI) in Hcur.
    destruct (published s) as [|cur old]; [done|]. injection Hcur as ->.
    apply NoDup_app in Hnd as (_ & _ & Hnd).
    apply NoDup_cons in Hnd as [Hnd _]. done.
  - apply NoDup_app in Hnd as (_ & Hnd & _). apply (Hnd a Ha).
    destruct (published s); [done|]. apply elem_of_cons. by right.
Qed.

Lemma count_app {A} (P : A → bool) l1 l2 :
  count P (l1 ++ l2) = (count P l1 + count P l2)%nat.
Proof. unfold count. by rewrite List.filter_app, length_app. Qed.

Lemma count_insert {A} (P : A → bool) (l : list A) i x y :
  l !! i = Some x →
  (count P (<[i:=y]> l) + (if P x then 1 else 0)
   = count P l + (if P y then 1 else 0))%nat.
Proof.
  intros Hi. rewrite insert_take_drop by by eapply lookup_lt_Some.
  rewrite <- (take_drop_middle l i x Hi) at 3.
  rewrite !count_app. unfold count. cbn.
  destruct (P x), (P y); cbn; lia.
Qed.

(** The one statement of [reload] that reads a file is the first. *)
Lemma step_reload_reads pc s :
  c_keystorePath (step_reload L pc s).2 = c_keystorePath s
  ∧ c_keystorePass (step_reload L pc s).2 = c_keystorePass s
  ∧ has_read (step_reload L pc s).1 = true
  ∧ reads (world (step_reload L pc s).2)
    = reads (world s) ++ (if has_read pc then [] else [c_keystorePath s]).
Proof.
  destruct pc as [| ks | blocks | pemBytes | a | a leaf err | a | err |];
    cbn; rewrite ?app_nil_r; try done.
  - by destruct (fs (world s) (c_keystorePath s)) as [ks [e|]].
  - by destruct (pkcs12_ToPEM L ks (c_keystorePass s)) as [blocks [e|]].
  - by destruct (tls_X509KeyPair L pemBytes pemBytes) as [ck [e|]].
  - destruct (heap s !! a) as [b|]; [|done].
    destruct (Certificate b !! 0%nat) as [der|]; [|done].
    by destruct (x509_ParseCertificate L der) as [leaf err].
  - by destruct err.
Qed.

Lemma step_reads path pass r0 act s :
  c_keystorePath s = path ∧ c_keystorePass s = pass
  ∧ reads (world s) = r0 ++ replicate (count has_read (reloaders s)) path →
  c_keystorePath (step L act s) = path ∧ c_keystorePass (step L act s) = pass
  ∧ reads (world (step L act s))
    = r0 ++ replicate (count has_read (reloaders (step L act s))) path.
Proof.
  intros (Hpath & Hpass & Hreads).
  destruct act as [| hello | tid | tid f | files]; cbn; try done.
  - rewrite count_app. change (count has_read [R_ReadFile]) with 0%nat.
    by rewrite Nat.add_0_r.
  - destruct (reloaders s !! tid) as [pc|] eqn:Htid; [|done].
    destruct (step_reload_reads pc s) as (Ep & Eq & Hpc' & Er).
    destruct (step_reload_shape L pc s) as (_ & El & _).
    destruct (step_reload L pc s) as [pc' s1]. cbn in *.
    split; [congruence|]. split; [congruence|].
    rewrite Er, El, Hreads, <- app_assoc. f_equal.
    pose proof (count_insert has_read (reloaders s) tid pc pc' Htid) as Hc.
    rewrite Hpc' in Hc. destruct (has_read pc).
    + rewrite app_nil_r. f_equal. lia.
    + replace (count has_read (<[tid:=pc']> (reloaders s)))
        with (S (count has_read (reloaders s))) by lia.
      rewrite Hpath. by rewrite replicate_S_end.
  - by destruct (readers s !! tid).
Qed.

(** X15: in every execution the path and the passphrase of the store stay
    what they were, and the files read are the keystore, once for each
    [reload] that has run its first statement: no [reload] reads twice,
    none reads another file, and a handshake reads no file. *)
Theorem run_reads_keystore_only path pass w0 acts :
  let s := run L acts (init path pass w0) in
  c_keystorePath s = path
  ∧ c_keystorePass s = pass
  ∧ reads (world s)
    = reads w0 ++ replicate (count has_read (reloaders s)) path.
Proof.
  intros s. unfold s. clear s.
  assert (H : ∀ s0,
            c_keystorePath s0 = path ∧ c_keystorePass s0 = pass
            ∧ reads (world s0)
              = reads w0 ++ replicate (count has_read (reloaders s0)) path →
            c_keystorePath (run L acts s0) = path
            ∧ c_keystorePass (run L acts s0) = pass
            ∧ reads (world (run L acts s0))
              = reads w0
                ++ replicate (count has_read (reloaders (run L acts s0)))
                     path).
  { induction acts as [|act acts IH]; intros s0 H0; [done|].
    rewrite run_cons. by apply IH, step_reads. }
  apply H. cbn. by rewrite app_nil_r.
Qed.

Lemma step_reload_stores pc s :
  (has_stored (step_reload L pc s).1 = has_stored pc
   ∧ published (step_reload L pc s).2 = published s)
  ∨ (∃ a, pc = R_Store a
          ∧ (step_reload L pc s).1 = R_Returned None
          ∧ published (step_reload L pc s).2 = a :: published s).
Proof.
  destruct pc as [| ks | blocks | pemBytes | a | a leaf err | a | err |];
    cbn; try by left.
  - left. by destruct (fs (world s) (c_keystorePath s)) as [ks [e|]].
  - left. by destruct (pkcs12_ToPEM L ks (c_keystorePass s))
      as [blocks [e|]].
  - left. by destruct (tls_X509KeyPair L pemBytes pemBytes) as [ck [e|]].
  - left. destruct (heap s !! a) as [b|]; [|done].
    destruct (Certificate b !! 0%nat) as [der|]; [|done].
    by destruct (x509_ParseCertificate L der) as [leaf err].
  - left. by destruct err.
  - right. by exists a.
Qed.

Lemma step_publications act s :
  length (published s) = count has_stored (reloaders s) →
  length (published (step L act s))
  = count has_stored (reloaders (step L act s)).
Proof.
  intros Hn.
  destruct act as [| hello | tid | tid f | files]; cbn; try done.
  - rewrite count_app. change (count has_stored [R_ReadFile]) with 0%nat.
    by rewrite Nat.add_0_r.
  - destruct (reloaders s !! tid) as [pc|] eqn:Htid; [|done].
    destruct (step_reload_shape L pc s) as (_ & El & _).
    destruct (step_reload_stores pc s)
      as [[Hnil Ep] | (a & -> & Hpc' & Ep)];
      destruct (step_reload L _ s) as [pc' s1]; cbn in *; rewrite El, Ep.
    + pose proof (count_insert has_stored (reloaders s) tid pc pc' Htid)
        as Hc.
      rewrite Hnil in Hc. destruct (has_stored pc); lia.
    + subst pc'.
      pose proof (count_insert has_stored (reloaders s) tid (R_Store a)
                    (R_Returned None) Htid) as Hc.
      cbn in *. lia.
  - by destruct (readers s !! tid).
Qed.

(** X16: in every execution there are as many publications as reloads that
    have executed the store of line 79, the last statement before the
    return of nil: a [reload] stores at most once, and one that has
    returned an error, has panicked or has not reached line 79 has stored
    nothing.  While no [reload] has executed line 79 the slot is nil. *)
Theorem publications_are_stores path pass w0 acts :
  let s := run L acts (init path pass w0) in
  length (published s) = count has_stored (reloaders s)
  ∧ (count has_stored (reloaders s) = 0%nat → cachedp s = None).
Proof.
  intros s.
  assert (H : length (published s) = count has_stored (reloaders s)).
  { unfold s. clear s.
    assert (H : ∀ s0,
              length (published s0) = count has_stored (reloaders s0) →
              length (published (run L acts s0))
              = count has_stored (reloaders (run L acts s0))).
    { induction acts as [|act acts IH]; intros s0 H0; [done|].
      rewrite run_cons. by apply IH, step_publications. }
    by apply H. }
  split; [done|]. intros H0.
  assert (HI : Inv L s) by apply run_Inv, Inv_init.
  rewrite (inv_cached _ _ HI). rewrite H0 in H.
  by destruct (published s).
Qed.

(** X12: scheduled seven times in a row from line 54, at any point of any
    execution, a [reload] has returned what the sequential [reload] returns
    on the store and the files of that point, with the same read logged and
    the same bundle in the slot. *)
Theorem reload_thread_refines path pass w0 acts tid :
  let s := run L acts (init path pass w0) in
  let s' := run L (replicate 7 (Step_reload tid)) s in
  reloaders s !! tid = Some R_ReadFile →
  (∃ pc, reloaders s' !! tid = Some pc
         ∧ outcome pc = Some (reload L (store_of s) (world s)).1.1)
  ∧ world s' = (reload L (store_of s) (world s)).2
  ∧ store_of s' = (reload L (store_of s) (world s)).1.2.
Proof.
  intros s s' Htid.
  assert (HI : Inv L s) by apply run_Inv, Inv_init.
  exact (reload_thread_agrees L tid s HI Htid).
Qed.

(** A statement of [reload] keeps every cell that is not its own. *)
Lemma step_reload_frame pc s a b :
  heap s !! a = Some b → owns pc ≠ Some a →
  heap (step_reload L pc s).2 !! a = Some b.
Proof.
  intros Hb Hne.
  destruct pc as [| ks | blocks | pemBytes | a' | a' leaf err | a' | err |];
    cbn; try done.
  - by destruct (fs (world s) (c_keystorePath s)) as [ks [e|]].
  - by destruct (pkcs12_ToPEM L ks (c_keystorePass s)) as [blocks [e|]].
  - destruct (tls_X509KeyPair L pemBytes pemBytes) as [ck [e|]]; cbn;
      by apply lookup_app_l_Some.
  - destruct (heap s !! a') as [b'|]; [|done].
    destruct (Certificate b' !! 0%nat) as [der|]; [|done].
    by destruct (x509_ParseCertificate L der) as [leaf err].
  - rewrite list_lookup_alter_ne; [done|]. cbn in Hne. congruence.
Qed.

Lemma step_reload_chain_ok matches pc s :
  X509KeyPair_contract L matches →
  chain_ok (heap s) pc →
  chain_ok (heap (step_reload L pc s).2) (step_reload L pc s).1.
Proof.
  intros Hlib Hok.
  destruct pc as [| ks | blocks | pemBytes | a | a leaf err | a | err |];
    cbn; try done.
  - by destruct (fs (world s) (c_keystorePath s)) as [ks [e|]].
  - by destruct (pkcs12_ToPEM L ks (c_keystorePass s)) as [blocks [e|]].
  - destruct (tls_X509KeyPair L pemBytes pemBytes) as [ck [e|]] eqn:Hk; cbn;
      [done|].
    destruct (Hlib _ _ _ Hk) as (der & Hder & _).
    exists ck, der. split; [|done]. by apply list_lookup_middle.
  - destruct Hok as (b & der & -> & ->).
    by destruct (x509_ParseCertificate L der) as [leaf err].
  - by destruct err.
Qed.

Lemma step_no_panic matches act s :
  X509KeyPair_contract L matches →
  Inv L s → no_panic s → no_panic (step L act s).
Proof.
  intros Hlib HI Hnp.
  destruct act as [| hello | tid | tid f | files]; cbn; try done.
  - intros i pc [Hi | (_ & Hi)]%lookup_app_Some; [by apply (Hnp i)|].
    by apply list_lookup_singleton_Some in Hi as [_ <-].
  - destruct (reloaders s !! tid) as [pc|] eqn:Htid; [|done].
    pose proof (step_reload_chain_ok matches pc s Hlib (Hnp _ _ Htid)) as Hown.
    pose proof (step_reload_frame pc s) as Hframe.
    destruct (step_reload_shape L pc s) as (_ & El & _).
    destruct (step_reload L pc s) as [pc' s1]. cbn in *. rewrite El.
    intros i pci Hi. cbn in *. destruct (decide (i = tid)) as [->|Hne].
    + apply list_lookup_insert_Some in Hi as [(_ & <- & _) | (? & _)]; done.
    + rewrite list_lookup_insert_ne in Hi by done.
      pose proof (Hnp _ _ Hi) as Hoki.
      destruct pci; try done. destruct Hoki as (b & der & Hb & Hder).
      exists b, der. split; [|done]. apply Hframe; [done|].
      intros Hpc. apply Hne. by eapply (inv_owners _ _ HI i tid).
  - by destruct (readers s !! tid).
Qed.

(** X17: with a tls.X509KeyPair that returns a certificate whenever it
    returns no error, no [reload] panics in any execution, however the
    reloads, the handshakes and the changes of the files interleave: a
    [reload] about to read the first certificate of its key pair finds its
    cell, with a certificate in it. *)
Theorem no_reload_panics matches path pass w0 acts i :
  X509KeyPair_contract L matches →
  reloaders (run L acts (init path pass w0)) !! i ≠ Some R_Panicked.
Proof.
  intros Hlib.
  assert (H : ∀ s0, Inv L s0 → no_panic s0 → no_panic (run L acts s0)).
  { induction acts as [|act acts IH]; intros s0 HI Hnp; [done|].
    rewrite run_cons.
    apply IH; [by apply step_Inv | by eapply step_no_panic]. }
  intros Hi. apply (H (init path pass w0) (Inv_init L _ _ _)) in Hi; [done|].
  by intros j pc Hj.
Qed.





End History.

Lemma handshake_reads_one_bundle_witness :
  ∃ b, 1%nat ∈ published (run Toy.libs Toy.race
                            (init "/etc/keystore.p12" "secret" Toy.w1))
       ∧ heap (run Toy.libs Toy.race
                 (init "/etc/keystore.p12" "secret" Toy.w1)) !! 1%nat = Some b
       ∧ formed Toy.libs b
       ∧ agrees Toy.seen2 b
       ∧ ∀ more,
           heap (run Toy.libs more
                   (run Toy.libs Toy.race
                      (init "/etc/keystore.p12" "secret" Toy.w1))) !! 1%nat
           = Some b.
Proof.
  apply (handshake_reads_one_bundle Toy.libs "/etc/keystore.p12" "secret"
           Toy.w1 Toy.race 0%nat 1%nat Toy.seen2).
  reflexivity.
Defined.

Lemma reload_thread_refines_witness :
  (∃ pc, reloaders (run Toy.libs (replicate 7 (Step_reload 1))
                      (run Toy.libs Toy.before
                         (init "/etc/keystore.p12" "secret" Toy.w1)))
           !! 1%nat = Some pc
         ∧ outcome pc = Some (Ret None))
  ∧ store_of (run Toy.libs (replicate 7 (Step_reload 1))
                (run Toy.libs Toy.before
                   (init "/etc/keystore.p12" "secret" Toy.w1)))
    = with_cached Toy.store1 (Some (Toy.bundle Toy.server2)).
Proof.
  destruct (reload_thread_refines Toy.libs "/etc/keystore.p12" "secret"
              Toy.w1 Toy.before 1%nat) as (H1 & _ & H2).
  - reflexivity.
  - split; [exact H1 | exact H2].
Defined.

Lemma getCertificate_sees_latest_witness :
  ∃ ext,
    published (run Toy.libs Toy.during
                 (run Toy.libs Toy.before
                    (init "/etc/keystore.p12" "secret" Toy.w1)))
    = ext ++ published (run Toy.libs Toy.before
                          (init "/etc/keystore.p12" "secret" Toy.w1))
    ∧ (Some 0%nat
       = cachedp (run Toy.libs Toy.before
                    (init "/etc/keystore.p12" "secret" Toy.w1))
       ∨ ∃ a, Some 0%nat = Some a ∧ a ∈ ext)
    ∧ ∀ a, Some 0%nat = Some a →
           a ∉ tail (published (run Toy.libs Toy.before
                                  (init "/etc/keystore.p12" "secret"
                                     Toy.w1))).
Proof.
  apply (getCertificate_sees_latest Toy.libs "/etc/keystore.p12" "secret"
           Toy.w1 Toy.before Toy.during 0%nat (Some 0%nat) Toy.seen1).
  - intros p seen Hlk. vm_compute in Hlk. discriminate Hlk.
  - reflexivity.
Defined.

Lemma no_reload_panics_witness :
  reloaders (run Toy.libs Toy.race
               (init "/etc/keystore.p12" "secret" Toy.w1)) !! 0%nat
  ≠ Some R_Panicked.
Proof.
  apply (no_reload_panics Toy.libs Toy.matches "/etc/keystore.p12" "secret"
           Toy.w1 Toy.race 0%nat).
  exact toy_X509KeyPair_contract.
Defined.


Example toy_reload_twice :
  let s2 := run Toy.libs (replicate 7 (Step_reload 1))
              (run Toy.libs (replicate 7 (Step_reload 0))
                 (run Toy.libs [Spawn_reload; Spawn_reload]
                    (init "/etc/keystore.p12" "secret" Toy.w1))) in
  reloaders s2 = [R_Returned None; R_Returned None]
  ∧ cachedp s2 = Some 1%nat
  ∧ heap s2 = [Toy.bundle Toy.server1; Toy.bundle Toy.server1]
  ∧ published s2 = [1%nat; 0%nat].
Proof. repeat split; reflexivity. Qed.

(** * Runs on the small platform *)

Example toy_race :
  let s := run Toy.libs Toy.race (init "/etc/keystore.p12" "secret" Toy.w1) in
  readers s = [G_Got (Some 1%nat) Toy.seen2]
  ∧ cachedp s = Some 0%nat
  ∧ heap s = [Toy.bundle Toy.server1; Toy.bundle Toy.server2]
  ∧ published s = [0%nat; 1%nat]
  ∧ reloaders s = [R_Returned None; R_Returned None]
  ∧ reads (world s) = ["/etc/keystore.p12"; "/etc/keystore.p12"].
Proof. repeat split; reflexivity. Qed.


Example toy_first_load :
  (reload Toy.libs Toy.unloaded Toy.w1).1 = (Ret None, Toy.store1).
Proof. reflexivity. Qed.

Example toy_reload_new_keystore :
  (reload Toy.libs Toy.store1 Toy.w2).1
  = (Ret None, with_cached Toy.store1 (Some (Toy.bundle Toy.server2))).
Proof. reflexivity. Qed.

Example toy_reload_missing_file :
  (reload Toy.libs (with_cached Toy.store1 None)
          {| fs := λ _, ([], Some "open: no such file or directory");
             reads := [] |}).1.1
  = Ret (Some "open: no such file or directory").
Proof. reflexivity. Qed.

Example toy_build_bad_leaf :
  (buildCertificate Toy.libs "/etc/badleaf.p12" "secret" Toy.w1).1
  = Ret (None, Some "x509: malformed certificate").
Proof. reflexivity. Qed.

Example toy_reload_reads_keystore :
  reads (reload Toy.libs Toy.store1 Toy.w2).2 = ["/etc/keystore.p12"].
Proof. reflexivity. Qed.

Example toy_bundle_system_pool :
  certBundle Toy.libs "" Toy.w1
  = (Some [[x01]], None,
     {| fs := Toy.disk Toy.server1;
        reads := ["/etc/ssl/certs/ca-certificates.crt"] |}).
Proof. reflexivity. Qed.

Example toy_bundle_empty_file :
  (certBundle Toy.libs "/etc/empty.pem" Toy.w1).1
  = (None, Some "unable to parse ca-bundle").
Proof. reflexivity. Qed.

(** After [Toy.before] and [Toy.during]: the handshake that called before
    the store has read the three fields of the first bundle, the slot points
    to the second, and a handshake that calls now reads the second. *)
Example toy_interleaving :
  let s := run Toy.libs Toy.during
             (run Toy.libs Toy.before
                (init "/etc/keystore.p12" "secret" Toy.w1)) in
  readers s = [G_Got (Some 0%nat) Toy.seen1]
  ∧ cachedp s = Some 1%nat
  ∧ heap s = [Toy.bundle Toy.server1; Toy.bundle Toy.server2]
  ∧ published s = [1%nat; 0%nat]
  ∧ readers (run Toy.libs [Spawn_reader None; Step_reader 1 F_Leaf;
                           Step_reader 1 F_Leaf] s) !! 1%nat
    = Some (G_Got (Some 1%nat)
              {| seenCertificate := None; seenPrivateKey := None;
                 seenLeaf := Some (Some Toy.server2) |}).
Proof. repeat split; reflexivity. Qed.
